(** * generate_graph.py: provenance log to causality graph

    A shallow embedding of [build_graph_and_subgraphs] and of the parts
    of the Python runtime, [json] and [networkx] it relies on, followed
    by the properties of the record decoder, the two passes over the
    records and the per-file subgraph extraction. *)

From Stdlib Require Import ZArith String Ascii List Bool Lia.
From stdpp Require Import base option list gmap sets strings pretty.

Local Open Scope string_scope.
Local Open Scope list_scope.
Local Open Scope Z_scope.
Local Set Warnings "-register-all,-clear-no-such-hyp".
Local Arguments String.append !_ _ /.

(** ** Python values

    What [json.loads] can return: [None], booleans, integers, strings,
    lists and dictionaries with string keys.  Floating point numbers are
    left out of the model.  A dictionary is an association list read from
    the left; the reader below never stores a key twice. *)

Inductive pyval : Type :=
| PNone
| PBool (b : bool)
| PInt (z : Z)
| PStr (s : string)
| PList (xs : list pyval)
| PDict (kvs : list (string * pyval)).

(** Truth value of an object, as tested by [if x:] and by [and]. *)
Definition truthy (v : pyval) : bool :=
  match v with
  | PNone => false
  | PBool b => b
  | PInt z => negb (z =? 0)
  | PStr s => negb (String.eqb s "")
  | PList xs => match xs with [] => false | _ => true end
  | PDict kvs => match kvs with [] => false | _ => true end
  end.

(** Hashable values, up to the equality Python dictionaries and sets use
    for them: [True == 1] and [False == 0] with equal hashes. *)
Inductive key : Type :=
| KNone
| KInt (z : Z)
| KStr (s : string).

#[global] Instance key_eq_dec : EqDecision key.
Proof. solve_decision. Defined.

#[global] Instance key_countable : Countable key.
Proof.
  refine (inj_countable'
    (fun k => match k with
              | KNone => inl tt
              | KInt z => inr (inl z)
              | KStr s => inr (inr s)
              end)
    (fun x => match x with
              | inl _ => KNone
              | inr (inl z) => KInt z
              | inr (inr s) => KStr s
              end) _).
  by intros [].
Defined.

(** [hash(v)]: [None] stands for the [TypeError] raised on a list or a
    dictionary. *)
Definition hash_key (v : pyval) : option key :=
  match v with
  | PNone => Some KNone
  | PBool b => Some (KInt (if b then 1 else 0))
  | PInt z => Some (KInt z)
  | PStr s => Some (KStr s)
  | PList _ | PDict _ => None
  end.

(** *** Dictionary access

    In the three functions below [None] is a raised exception. *)

Fixpoint assoc (k : string) (kvs : list (string * pyval)) : option pyval :=
  match kvs with
  | [] => None
  | (k', v) :: rest => if String.eqb k k' then Some v else assoc k rest
  end.

(** [v.get(k, dflt)]: only a dictionary has the method
    ([AttributeError] otherwise). *)
Definition py_get (v : pyval) (k : string) (dflt : pyval) : option pyval :=
  match v with
  | PDict kvs => Some (default dflt (assoc k kvs))
  | _ => None
  end.

(** [v[k]] for a string [k]: [KeyError] on a dictionary without the key,
    [TypeError] on everything that is not a dictionary. *)
Definition py_index (v : pyval) (k : string) : option pyval :=
  match v with
  | PDict kvs => assoc k kvs
  | _ => None
  end.

Fixpoint prefixb (p s : string) : bool :=
  match p, s with
  | EmptyString, _ => true
  | String a p', String b s' => Ascii.eqb a b && prefixb p' s'
  | String _ _, EmptyString => false
  end.

Fixpoint substringb (p s : string) : bool :=
  prefixb p s ||
  match s with
  | EmptyString => false
  | String _ s' => substringb p s'
  end.

(** [k in v] for a string [k]: key membership on a dictionary, substring
    test on a string, element test on a list, [TypeError] on the rest. *)
Definition py_in (k : string) (v : pyval) : option bool :=
  match v with
  | PDict kvs => Some (bool_decide (is_Some (assoc k kvs)))
  | PStr s => Some (substringb k s)
  | PList xs =>
      Some (existsb (fun x => match x with
                              | PStr s => String.eqb s k
                              | _ => false
                              end) xs)
  | PNone | PBool _ | PInt _ => None
  end.

(** ** The networkx [DiGraph]

    [nodes] is the node table with the [type] attribute of each node
    ([None] for a node that has no attribute); [edges] is the adjacency
    structure, one attribute value ([syscall]) per ordered pair. *)

Inductive ntype : Type := TFile | TProcess | TSocket.

#[global] Instance ntype_eq_dec : EqDecision ntype.
Proof. solve_decision. Defined.

Record digraph : Type := DiGraph {
  nodes : gmap key (option ntype);
  edges : gmap (key * key) pyval
}.

Definition empty_graph : digraph := DiGraph ∅ ∅.

(** [G.add_node(n, type=t)]: creates the node or updates its attribute. *)
Definition add_node (n : key) (t : ntype) (g : digraph) : option digraph :=
  match n with
  | KNone => if decide (is_Some (nodes g !! n)) then
               Some (DiGraph (<[n := Some t]> (nodes g)) (edges g))
             else None
  | _ => Some (DiGraph (<[n := Some t]> (nodes g)) (edges g))
  end.

Definition touch_node (n : key) (ns : gmap key (option ntype))
  : option (gmap key (option ntype)) :=
  match ns !! n with
  | Some _ => Some ns
  | None => match n with
            | KNone => None
            | _ => Some (<[n := None]> ns)
            end
  end.

(** [G.add_edge(u, v, syscall=l)]: creates missing end points without
    attributes ([ValueError] for [None]; an end point created before the
    exception stays), then sets the attribute of the one edge from [u]
    to [v]. *)
Definition add_edge (u v : key) (l : pyval) (g : digraph)
  : digraph * option unit :=
  match touch_node u (nodes g) with
  | None => (g, None)
  | Some ns =>
      match touch_node v ns with
      | None => (DiGraph ns (edges g), None)
      | Some ns' => (DiGraph ns' (<[(u, v) := l]> (edges g)), Some tt)
      end
  end.

(** ** State of [build_graph_and_subgraphs] *)

Record state : Type := State {
  main_graph : digraph;
  file_nodes : gset key;
  uuid2name : gmap key key;
  file_names : gset key;
  count_f : nat;
  count_p : nat;
  count_s : nat
}.

Definition init_state : state := State empty_graph ∅ ∅ ∅ 0 0 0.

(** Statements that may raise after they changed the state: the state
    reached is kept, the value is [None] when an exception is on its
    way to the handler. *)
Definition stmt (A : Type) : Type := state → state * option A.

#[global] Instance stmt_ret : MRet stmt :=
  fun A (a : A) st => (st, Some a).

#[global] Instance stmt_bind : MBind stmt :=
  fun A B (k : A → stmt B) (m : stmt A) st =>
    match m st with
    | (st', Some a) => k a st'
    | (st', None) => (st', None)
    end.

(** Evaluation of an expression without effect on the state. *)
Definition eval {A} (o : option A) : stmt A := fun st => (st, o).

Definition update (upd : state → state) : stmt unit :=
  fun st => (upd st, Some tt).

Definition read {A} (proj : state → A) : stmt A :=
  fun st => (st, Some (proj st)).

(** [try: body except Exception: continue] *)
Definition try_continue (body : stmt unit) (st : state) : state :=
  fst (body st).

Definition graph_add_node (n : key) (t : ntype) : stmt unit :=
  fun st => match add_node n t (main_graph st) with
            | Some g => (State g (file_nodes st) (uuid2name st)
                           (file_names st) (count_f st) (count_p st)
                           (count_s st), Some tt)
            | None => (st, None)
            end.

Definition graph_add_edge (u v : key) (l : pyval) : stmt unit :=
  fun st => let '(g, r) := add_edge u v l (main_graph st) in
            (State g (file_nodes st) (uuid2name st) (file_names st)
               (count_f st) (count_p st) (count_s st), r).

Definition file_nodes_add (n : key) : stmt unit :=
  update (fun st => State (main_graph st) ({[n]} ∪ file_nodes st)
                      (uuid2name st) (file_names st)
                      (count_f st) (count_p st) (count_s st)).

Definition file_names_add (n : key) : stmt unit :=
  update (fun st => State (main_graph st) (file_nodes st)
                      (uuid2name st) ({[n]} ∪ file_names st)
                      (count_f st) (count_p st) (count_s st)).

Definition uuid2name_set (u n : key) : stmt unit :=
  update (fun st => State (main_graph st) (file_nodes st)
                      (<[u := n]> (uuid2name st)) (file_names st)
                      (count_f st) (count_p st) (count_s st)).

Definition incr_f : stmt unit :=
  update (fun st => State (main_graph st) (file_nodes st) (uuid2name st)
                      (file_names st) (S (count_f st)) (count_p st)
                      (count_s st)).

Definition incr_p : stmt unit :=
  update (fun st => State (main_graph st) (file_nodes st) (uuid2name st)
                      (file_names st) (count_f st) (S (count_p st))
                      (count_s st)).

Definition incr_s : stmt unit :=
  update (fun st => State (main_graph st) (file_nodes st) (uuid2name st)
                      (file_names st) (count_f st) (count_p st)
                      (S (count_s st))).

Definition FILE_OBJECT : string := "com.bbn.tc.schema.avro.cdm18.FileObject".
Definition SUBJECT : string := "com.bbn.tc.schema.avro.cdm18.Subject".
Definition NETFLOW_OBJECT : string :=
  "com.bbn.tc.schema.avro.cdm18.NetFlowObject".
Definition EVENT : string := "com.bbn.tc.schema.avro.cdm18.Event".
Definition UUID : string := "com.bbn.tc.schema.avro.cdm18.UUID".

(** ** First pass: nodes *)

(** What the first loop reads from a record before it changes anything
    (lines 50 to 54, 62 to 65 and 71 to 73). *)
Inductive declaration : Type :=
| FileDecl (file_obj file_path : pyval)
| ProcessDecl (process_uuid executable_name : pyval)
| SocketDecl (netflow_obj socket_address : pyval)
| NoDecl.

Definition read_declaration (entry : pyval) : option declaration :=
  datum ← py_get entry "datum" (PDict []);
  is_file ← py_in FILE_OBJECT datum;
  if is_file : bool then
    file_obj ← py_index datum FILE_OBJECT;
    base ← py_index file_obj "baseObject";
    props ← py_index base "properties";
    map ← py_index props "map";
    file_path ← py_get map "path" PNone;
    Some (FileDecl file_obj file_path)
  else
  is_subject ← py_in SUBJECT datum;
  if is_subject : bool then
    subject ← py_index datum SUBJECT;
    process_uuid ← py_get subject "uuid" PNone;
    props ← py_get subject "properties" (PDict []);
    map ← py_get props "map" (PDict []);
    executable_name ← py_get map "name" PNone;
    Some (ProcessDecl process_uuid executable_name)
  else
  is_netflow ← py_in NETFLOW_OBJECT datum;
  if is_netflow : bool then
    netflow_obj ← py_index datum NETFLOW_OBJECT;
    socket_address ← py_get netflow_obj "remoteAddress" PNone;
    Some (SocketDecl netflow_obj socket_address)
  else Some NoDecl.

(** Body of the [try] of the first loop. *)
Definition node_body (entry : pyval) : stmt unit :=
  decl ← eval (read_declaration entry);
  match decl with
  | FileDecl file_obj file_path =>
      if truthy file_path then
        n ← eval (hash_key file_path);
        graph_add_node n TFile;;
        file_nodes_add n;;
        uuid ← eval (py_index file_obj "uuid");
        u ← eval (hash_key uuid);
        uuid2name_set u n;;
        file_names_add n;;
        incr_f
      else mret tt
  | ProcessDecl process_uuid executable_name =>
      if truthy process_uuid && truthy executable_name then
        n ← eval (hash_key executable_name);
        graph_add_node n TProcess;;
        u ← eval (hash_key process_uuid);
        uuid2name_set u n;;
        incr_p
      else mret tt
  | SocketDecl netflow_obj socket_address =>
      if truthy socket_address then
        n ← eval (hash_key socket_address);
        graph_add_node n TSocket;;
        uuid ← eval (py_index netflow_obj "uuid");
        u ← eval (hash_key uuid);
        uuid2name_set u n;;
        incr_s
      else mret tt
  | NoDecl => mret tt
  end.

Definition node_step (st : state) (entry : pyval) : state :=
  try_continue (node_body entry) st.

Definition node_pass (log_entries : list pyval) (st : state) : state :=
  fold_left node_step log_entries st.

(** ** Second pass: edges *)

(** What the second loop reads from a record (lines 86 to 93): the
    operation, the subject identifier and the target identifier of an
    event, [None] inside for a record that is not an event. *)
Definition read_event (entry : pyval)
  : option (option (pyval * pyval * pyval)) :=
  datum ← py_get entry "datum" (PDict []);
  is_event ← py_in EVENT datum;
  if is_event : bool then
    event ← py_index datum EVENT;
    syscall ← py_get event "type" PNone;
    subject ← py_get event "subject" (PDict []);
    src ← py_get subject UUID PNone;
    preobject ← py_get event "predicateObject" (PDict []);
    tgt ← py_get preobject UUID PNone;
    Some (Some (syscall, src, tgt))
  else Some None.

(** [src in uuid2name and tgt in uuid2name], with the two names when it
    holds: [tgt] is hashed only when [src] was found. *)
Definition both_known (src tgt : pyval) : stmt (option (key * key)) :=
  ks ← eval (hash_key src);
  index ← read uuid2name;
  match index !! ks with
  | None => mret None
  | Some name1 =>
      kt ← eval (hash_key tgt);
      match index !! kt with
      | None => mret None
      | Some name2 => mret (Some (name1, name2))
      end
  end.

(** Body of the [try] of the second loop. *)
Definition edge_body (entry : pyval) : stmt unit :=
  fields ← eval (read_event entry);
  match fields with
  | Some (syscall, src, tgt) =>
      known ← both_known src tgt;
      match known with
      | Some (name1, name2) =>
          names ← read file_names;
          if decide (name2 ∈ names) then graph_add_edge name2 name1 syscall
          else graph_add_edge name1 name2 syscall
      | None => mret tt
      end
  | None => mret tt
  end.

Definition edge_step (st : state) (entry : pyval) : state :=
  try_continue (edge_body entry) st.

Definition edge_pass (log_entries : list pyval) (st : state) : state :=
  fold_left edge_step log_entries st.

(** ** Subgraph extraction *)

Definition edge_rel (g : digraph) (u v : key) : Prop :=
  is_Some (edges g !! (u, v)).

(** One round of the breadth-first search: the nodes seen so far and
    every successor of one of them. *)
Definition expand (g : digraph) (seen : gset key) : gset key :=
  seen ∪ set_map snd (filter (fun e : key * key => e.1 ∈ seen) (dom (edges g))).

Definition reach_from (g : digraph) (source : key) : gset key :=
  Nat.iter (size (nodes g)) (expand g) {[source]}.

(** [nx.descendants(G, source)]: every node reachable from [source],
    [source] itself left out; [NetworkXError] ([None]) when [source] is
    not a node of [G]. *)
Definition descendants (g : digraph) (source : key) : option (gset key) :=
  if decide (is_Some (nodes g !! source)) then
    Some (reach_from g source ∖ {[source]})
  else None.

(** [G.subgraph(nbunch).copy()]: the nodes of [nbunch] that are in [G]
    with their attribute, the edges of [G] between two of them with
    theirs. *)
Definition subgraph (g : digraph) (nbunch : gset key) : digraph :=
  DiGraph
    (filter (fun kv : key * option ntype => kv.1 ∈ nbunch) (nodes g))
    (filter (fun ev : (key * key) * pyval =>
               ev.1.1 ∈ nbunch ∧ ev.1.2 ∈ nbunch) (edges g)).

(** Body of the last loop, for one [file_node]. *)
Definition behavior (g : digraph) (file_node : key) : option digraph :=
  ds ← descendants g file_node;
  Some (subgraph g ({[file_node]} ∪ ds)).

(** The last loop: it is not guarded, an exception ends the run.  The
    order in which the set is visited does not show in the dictionary
    built. *)
Definition extract (g : digraph) (files : gset key)
  : option (gmap key digraph) :=
  foldr (fun file_node acc =>
           file_subgraphs ← acc;
           sg ← behavior g file_node;
           Some (<[file_node := sg]> file_subgraphs))
        (Some ∅) (elements files).

(** The two loops over the decoded records. *)
Definition passes (log_entries : list pyval) : state :=
  edge_pass log_entries (node_pass log_entries init_state).

(** The function from the decoded records on; [None] is an exception
    that leaves the function. *)
Definition build_from_entries (log_entries : list pyval)
  : option (digraph * gmap key digraph) :=
  let st := passes log_entries in
  file_subgraphs ← extract (main_graph st) (file_nodes st);
  Some (main_graph st, file_subgraphs).

(** ** Strings

    A character is a code point below 256. *)

(** [str.isspace] on one character, which is what [str.strip()] removes. *)
Definition py_isspace (c : ascii) : bool :=
  let n := nat_of_ascii c in
  ((9 <=? n) && (n <=? 13) || (28 <=? n) && (n <=? 32)
   || (n =? 133) || (n =? 160))%nat.

Fixpoint lstrip (drop : ascii → bool) (s : string) : string :=
  match s with
  | EmptyString => EmptyString
  | String c s' => if drop c then lstrip drop s' else s
  end.

Fixpoint rstrip (drop : ascii → bool) (s : string) : string :=
  match s with
  | EmptyString => EmptyString
  | String c s' =>
      match rstrip drop s' with
      | EmptyString => if drop c then EmptyString else String c EmptyString
      | r => String c r
      end
  end.

(** [s.strip()] *)
Definition strip (s : string) : string := rstrip py_isspace (lstrip py_isspace s).

(** [s.rstrip(',')] *)
Definition rstrip_commas (s : string) : string := rstrip (Ascii.eqb ",") s.

(** [s.startswith(c)] and [s.endswith(c)] for a one-character [c]. *)
Definition startswith (c : ascii) (s : string) : bool :=
  match s with
  | String a _ => Ascii.eqb a c
  | EmptyString => false
  end.

Fixpoint endswith (c : ascii) (s : string) : bool :=
  match s with
  | EmptyString => false
  | String a EmptyString => Ascii.eqb a c
  | String _ s' => endswith c s'
  end.

(** [s[1:]] and [s[:-1]] *)
Definition drop_first (s : string) : string :=
  match s with
  | String _ s' => s'
  | EmptyString => EmptyString
  end.

Fixpoint drop_last (s : string) : string :=
  match s with
  | EmptyString => EmptyString
  | String _ EmptyString => EmptyString
  | String a s' => String a (drop_last s')
  end.

Definition newline : ascii := "010"%char.

(** [content.split('\n')] *)
Fixpoint split_lines (content : string) : list string :=
  match content with
  | EmptyString => [EmptyString]
  | String c rest =>
      if Ascii.eqb c newline then EmptyString :: split_lines rest
      else match split_lines rest with
           | line :: lines => String c line :: lines
           | [] => [String c EmptyString]
           end
  end.

(** ['\n'.join(lines)] *)
Fixpoint join_lines (lines : list string) : string :=
  match lines with
  | [] => EmptyString
  | [line] => line
  | line :: rest => line +:+ String newline (join_lines rest)
  end.

Definition is_empty (s : string) : bool :=
  match s with
  | EmptyString => true
  | _ => false
  end.

(** ** Outcomes of a call

    A call returns a value or raises an exception.  [ValueError] stands
    for a [ValueError] that is not a [JSONDecodeError].  [Unmodelled] is
    a result of which nothing is said here: a value that [pyval] does
    not hold (a float, a character above 255), or a limit that depends
    on the interpreter that runs the script. *)

Inductive exception : Type :=
  | JSONDecodeError
  | ValueError
  | RecursionError
  | NetworkXError.

Inductive outcome (A : Type) : Type :=
  | Returns (a : A)
  | Raises (e : exception)
  | Unmodelled.

Arguments Returns {A} a.
Arguments Raises {A} e.
Arguments Unmodelled {A}.

#[global] Instance outcome_ret : MRet outcome := fun A a => Returns a.

#[global] Instance outcome_bind : MBind outcome :=
  fun A B (k : A → outcome B) (o : outcome A) =>
    match o with
    | Returns a => k a
    | Raises e => Raises e
    | Unmodelled => Unmodelled
    end.

(** ** Record decoder

    [loads] stands for [json.loads]. *)

Section Decoder.

Variable loads : string → outcome pyval.

(** Lines 35 to 39: the text handed to [json.loads] for one line. *)
Definition clean_line (line : string) : string :=
  let line := strip (rstrip_commas (strip line)) in
  let line := if startswith "[" line then drop_first line else line in
  let line := if endswith "]" line then drop_last line else line in
  line.

(** Body of the loop over the lines, lines 31 to 45.  The handler
    catches [JSONDecodeError]; another exception leaves the loop. *)
Definition line_step (log_entries : list pyval) (line : string)
  : outcome (list pyval) :=
  if is_empty (strip line) then Returns log_entries
  else
    let line := clean_line line in
    if is_empty line then Returns log_entries
    else match loads line with
         | Returns entry => Returns (log_entries ++ [entry])
         | Raises JSONDecodeError => Returns log_entries
         | Raises e => Raises e
         | Unmodelled => Unmodelled
         end.

Fixpoint lines_loop (lines : list string) (log_entries : list pyval)
  : outcome (list pyval) :=
  match lines with
  | [] => Returns log_entries
  | line :: rest => line_step log_entries line ≫= lines_loop rest
  end.

Definition decode_lines (content : string) : outcome (list pyval) :=
  lines_loop (split_lines content) [].

(** Lines 19 to 45.  The handler of line 26 catches [JSONDecodeError];
    another exception leaves the function. *)
Definition decode (content : string) : outcome (list pyval) :=
  match loads content with
  | Returns (PList log_entries) => Returns log_entries
  | Returns log_entries => Returns [log_entries]
  | Raises JSONDecodeError => decode_lines content
  | Raises e => Raises e
  | Unmodelled => Unmodelled
  end.

(** The function from the text of the log on; the last loop raises
    [NetworkXError] where [nx.descendants] does. *)
Definition build_graph_and_subgraphs (content : string)
  : outcome (digraph * gmap key digraph) :=
  log_entries ← decode content;
  match build_from_entries log_entries with
  | Some result => Returns result
  | None => Raises NetworkXError
  end.

End Decoder.

(** ** A JSON reader

    An instance of [loads]: the grammar of JSON with integer numbers,
    as [json.loads] of CPython reads it with its default limits.  It
    gives [Unmodelled] where [json.loads] gives a value outside [pyval]
    (a number with a fraction or an exponent, [NaN], an infinity, a
    [\u] escape), where the nesting is deeper than [max_depth] (the
    depth at which [RecursionError] is raised depends on the
    interpreter), and when it runs out of fuel. *)

Definition dquote : ascii := "034"%char.
Definition backslash : ascii := "092"%char.

(** Nesting up to which the reader answers. *)
Definition max_depth : nat := 64.

(** [sys.int_info.default_max_str_digits]: a longer integer literal
    makes [int] raise [ValueError]. *)
Definition max_str_digits : nat := 4300.

Definition json_ws (c : ascii) : bool :=
  let n := nat_of_ascii c in
  ((n =? 32) || (n =? 9) || (n =? 10) || (n =? 13))%nat.

Definition skip_ws (s : string) : string := lstrip json_ws s.

Definition unescape (c : ascii) : outcome ascii :=
  if Ascii.eqb c dquote then Returns dquote
  else if Ascii.eqb c backslash then Returns backslash
  else if Ascii.eqb c "/" then Returns "/"%char
  else if Ascii.eqb c "b" then Returns "008"%char
  else if Ascii.eqb c "f" then Returns "012"%char
  else if Ascii.eqb c "n" then Returns "010"%char
  else if Ascii.eqb c "r" then Returns "013"%char
  else if Ascii.eqb c "t" then Returns "009"%char
  else if Ascii.eqb c "u" then Unmodelled
  else Raises JSONDecodeError.

(** The text after an opening quote, up to the closing one; [escaped]
    says that the character before was a backslash. *)
Fixpoint read_string (escaped : bool) (s : string)
  : outcome (string * string) :=
  match s with
  | EmptyString => Raises JSONDecodeError
  | String c r =>
      if escaped then
        x ← unescape c;
        '(str, rest) ← read_string false r;
        Returns (String x str, rest)
      else if Ascii.eqb c dquote then Returns (EmptyString, r)
      else if Ascii.eqb c backslash then read_string true r
      else if (nat_of_ascii c <? 32)%nat then Raises JSONDecodeError
      else '(str, rest) ← read_string false r;
           Returns (String c str, rest)
  end.

Definition digit (c : ascii) : option Z :=
  let n := nat_of_ascii c in
  if ((48 <=? n) && (n <=? 57))%nat then Some (Z.of_nat n - 48) else None.

Fixpoint read_digits (acc : Z) (s : string) : Z * string :=
  match s with
  | EmptyString => (acc, EmptyString)
  | String c r =>
      match digit c with
      | Some d => read_digits (10 * acc + d) r
      | None => (acc, s)
      end
  end.

Definition read_int (s : string) : outcome (Z * string) :=
  let negative := startswith "-" s in
  match (if negative then drop_first s else s) with
  | EmptyString => Raises JSONDecodeError
  | String c r =>
      match digit c with
      | None => Raises JSONDecodeError
      | Some d =>
          let '(n, rest) := if d =? 0 then (0, r) else read_digits d r in
          if startswith "." rest || startswith "e" rest || startswith "E" rest
          then Unmodelled
          else if (max_str_digits
                   <? S (String.length r) - String.length rest)%nat
          then Raises ValueError
          else Returns (if negative then - n else n, rest)
      end
  end.

Fixpoint dict_set (k : string) (v : pyval) (kvs : list (string * pyval))
  : list (string * pyval) :=
  match kvs with
  | [] => [(k, v)]
  | (k', v') :: rest =>
      if String.eqb k k' then (k', v) :: rest
      else (k', v') :: dict_set k v rest
  end.

Fixpoint skip_chars (n : nat) (s : string) : string :=
  match n, s with
  | S n', String _ r => skip_chars n' r
  | _, _ => s
  end.

Definition read_literal (s : string) : outcome (pyval * string) :=
  if prefixb "null" s then Returns (PNone, skip_chars 4 s)
  else if prefixb "true" s then Returns (PBool true, skip_chars 4 s)
  else if prefixb "false" s then Returns (PBool false, skip_chars 5 s)
  else if prefixb "NaN" s || prefixb "Infinity" s || prefixb "-Infinity" s
  then Unmodelled
  else '(n, rest) ← read_int s; Returns (PInt n, rest).

Fixpoint read_value (fuel depth : nat) (s : string)
  : outcome (pyval * string) :=
  match fuel with
  | O => Unmodelled
  | S fuel' =>
      match s with
      | EmptyString => Raises JSONDecodeError
      | String c r =>
          if Ascii.eqb c dquote then
            '(str, rest) ← read_string false r; Returns (PStr str, rest)
          else if Ascii.eqb c "{" then
            match depth, skip_ws r with
            | O, _ => Unmodelled
            | _, EmptyString => Raises JSONDecodeError
            | S depth', String c' rest =>
                if Ascii.eqb c' "}" then Returns (PDict [], rest)
                else read_members fuel' depth' (String c' rest) []
            end
          else if Ascii.eqb c "[" then
            match depth, skip_ws r with
            | O, _ => Unmodelled
            | _, EmptyString => Raises JSONDecodeError
            | S depth', String c' rest =>
                if Ascii.eqb c' "]" then Returns (PList [], rest)
                else read_elements fuel' depth' (String c' rest) []
            end
          else read_literal s
      end
  end
with read_elements (fuel depth : nat) (s : string) (acc : list pyval)
  : outcome (pyval * string) :=
  match fuel with
  | O => Unmodelled
  | S fuel' =>
      '(v, r) ← read_value fuel' depth s;
      match skip_ws r with
      | EmptyString => Raises JSONDecodeError
      | String c rest =>
          if Ascii.eqb c "]" then Returns (PList (acc ++ [v]), rest)
          else if Ascii.eqb c "," then
            read_elements fuel' depth (skip_ws rest) (acc ++ [v])
          else Raises JSONDecodeError
      end
  end
with read_members (fuel depth : nat) (s : string)
    (acc : list (string * pyval)) : outcome (pyval * string) :=
  match fuel with
  | O => Unmodelled
  | S fuel' =>
      match s with
      | EmptyString => Raises JSONDecodeError
      | String c r =>
          if Ascii.eqb c dquote then
            '(k, r1) ← read_string false r;
            match skip_ws r1 with
            | EmptyString => Raises JSONDecodeError
            | String c1 r2 =>
                if Ascii.eqb c1 ":" then
                  '(v, r3) ← read_value fuel' depth (skip_ws r2);
                  match skip_ws r3 with
                  | EmptyString => Raises JSONDecodeError
                  | String c3 rest =>
                      if Ascii.eqb c3 "}" then
                        Returns (PDict (dict_set k v acc), rest)
                      else if Ascii.eqb c3 "," then
                        read_members fuel' depth (skip_ws rest)
                          (dict_set k v acc)
                      else Raises JSONDecodeError
                  end
                else Raises JSONDecodeError
            end
          else Raises JSONDecodeError
      end
  end.

Definition json_loads (s : string) : outcome pyval :=
  match read_value (2 * String.length s + 2) max_depth (skip_ws s) with
  | Returns (v, rest) =>
      if is_empty (skip_ws rest) then Returns v else Raises JSONDecodeError
  | Raises e => Raises e
  | Unmodelled => Unmodelled
  end.

(** JSON texts are written with apostrophes in the examples and read
    with double quotes in their place. *)
Fixpoint dq (s : string) : string :=
  match s with
  | EmptyString => EmptyString
  | String c r => String (if Ascii.eqb c "'" then dquote else c) (dq r)
  end.

(** ** Summaries of the two loop bodies

    What one record does to the state in each loop, as a function of the
    record; the lemmas [node_step_effect] and [edge_step_effect] relate
    them to the loop bodies. *)

Inductive effect : Type :=
| Declared (t : ntype) (n u : key)
| NodeOnly (t : ntype) (n : key)
| Skipped.

Definition named (t : ntype) (name : pyval) (uuid : option pyval) : effect :=
  if truthy name then
    match hash_key name with
    | Some n =>
        match uuid ≫= hash_key with
        | Some u => Declared t n u
        | None => NodeOnly t n
        end
    | None => Skipped
    end
  else Skipped.

Definition node_effect (entry : pyval) : effect :=
  match read_declaration entry with
  | Some (FileDecl file_obj file_path) =>
      named TFile file_path (py_index file_obj "uuid")
  | Some (ProcessDecl process_uuid executable_name) =>
      if truthy process_uuid then
        named TProcess executable_name (Some process_uuid)
      else Skipped
  | Some (SocketDecl netflow_obj socket_address) =>
      named TSocket socket_address (py_index netflow_obj "uuid")
  | Some NoDecl | None => Skipped
  end.

Definition files_with (t : ntype) (n : key) (X : gset key) : gset key :=
  match t with
  | TFile => {[n]} ∪ X
  | _ => X
  end.

Definition count_with (t t' : ntype) (c : nat) : nat :=
  if decide (t = t') then S c else c.

Definition apply_effect (st : state) (eff : effect) : state :=
  match eff with
  | Declared t n u =>
      State (DiGraph (<[n := Some t]> (nodes (main_graph st)))
               (edges (main_graph st)))
        (files_with t n (file_nodes st))
        (<[u := n]> (uuid2name st))
        (files_with t n (file_names st))
        (count_with t TFile (count_f st))
        (count_with t TProcess (count_p st))
        (count_with t TSocket (count_s st))
  | NodeOnly t n =>
      State (DiGraph (<[n := Some t]> (nodes (main_graph st)))
               (edges (main_graph st)))
        (files_with t n (file_nodes st))
        (uuid2name st) (file_names st)
        (count_f st) (count_p st) (count_s st)
  | Skipped => st
  end.

(** The edge a record yields in the second loop, for a given index and
    set of file names. *)
Definition edge_effect (index : gmap key key) (names : gset key)
    (entry : pyval) : option (key * key * pyval) :=
  match read_event entry with
  | Some (Some (syscall, src, tgt)) =>
      ks ← hash_key src;
      name1 ← index !! ks;
      kt ← hash_key tgt;
      name2 ← index !! kt;
      Some (if decide (name2 ∈ names) then (name2, name1, syscall)
            else (name1, name2, syscall))
  | _ => None
  end.

Definition set_edge (u v : key) (l : pyval) (st : state) : state :=
  State (DiGraph (nodes (main_graph st)) (<[(u, v) := l]> (edges (main_graph st))))
    (file_nodes st) (uuid2name st) (file_names st)
    (count_f st) (count_p st) (count_s st).

(** ** Invariant of the construction *)

Record consistent (st : state) : Prop := Consistent {
  names_are_nodes :
    ∀ u n, uuid2name st !! u = Some n → is_Some (nodes (main_graph st) !! n);
  file_nodes_are_nodes :
    ∀ n, n ∈ file_nodes st → is_Some (nodes (main_graph st) !! n);
  file_names_are_file_nodes : file_names st ⊆ file_nodes st;
  file_tag_in_file_nodes :
    ∀ n, nodes (main_graph st) !! n = Some (Some TFile) → n ∈ file_nodes st;
  all_nodes_tagged :
    ∀ n, nodes (main_graph st) !! n ≠ Some None;
  edges_join_nodes :
    ∀ u v, is_Some (edges (main_graph st) !! (u, v)) →
           is_Some (nodes (main_graph st) !! u) ∧
           is_Some (nodes (main_graph st) !! v)
}.

(** The second loop changes nothing but the edges. *)
Definition same_but_edges (st st' : state) : Prop :=
  nodes (main_graph st') = nodes (main_graph st) ∧
  file_nodes st' = file_nodes st ∧
  uuid2name st' = uuid2name st ∧
  file_names st' = file_names st ∧
  count_f st' = count_f st ∧ count_p st' = count_p st ∧
  count_s st' = count_s st.

(** [v in index], with the name found: [None] also when hashing [v]
    raises. *)
Definition known (index : gmap key key) (v : pyval) : option key :=
  hash_key v ≫= (index !!.).

(** ** Records for the examples *)

Definition file_payload (fields : list (string * pyval)) (path : pyval)
  : pyval :=
  PDict [("datum", PDict [(FILE_OBJECT,
    PDict (fields ++
           [("baseObject", PDict [("properties",
              PDict [("map", PDict [("path", path)])])])]))])].

Definition file_record (uuid path : pyval) : pyval :=
  file_payload [("uuid", uuid)] path.

Definition process_record (uuid name : pyval) : pyval :=
  PDict [("datum", PDict [(SUBJECT,
    PDict [("uuid", uuid);
           ("properties", PDict [("map", PDict [("name", name)])])])])].

Definition socket_record (uuid address : pyval) : pyval :=
  PDict [("datum", PDict [(NETFLOW_OBJECT,
    PDict [("uuid", uuid); ("remoteAddress", address)])])].

Definition event_payload (fields : list (string * pyval)) : pyval :=
  PDict [("datum", PDict [(EVENT, PDict fields)])].

Definition event_record (type src tgt : pyval) : pyval :=
  event_payload [("type", type);
                 ("subject", PDict [(UUID, src)]);
                 ("predicateObject", PDict [(UUID, tgt)])].


(** The log of the scenario of the specification, a second event with
    another operation between the same two entities, and an event that
    has no operation. *)
Definition passwd_record : pyval := file_record (PStr "F1") (PStr "/etc/passwd").
Definition bash_record : pyval := process_record (PStr "P1") (PStr "bash").
Definition read_record : pyval := event_record (PStr "read") (PStr "P1") (PStr "F1").
Definition write_record : pyval := event_record (PStr "write") (PStr "P1") (PStr "F1").
Definition untyped_record : pyval :=
  event_payload [("subject", PDict [(UUID, PStr "P1")]);
                 ("predicateObject", PDict [(UUID, PStr "F1")])].


(** The node a record adds in the first loop, with its type. *)
Definition names_node (entry : pyval) : option (ntype * key) :=
  match node_effect entry with
  | Declared t n _ | NodeOnly t n => Some (t, n)
  | Skipped => None
  end.



(** ** Lines of the log *)

Fixpoint has_newline (s : string) : bool :=
  match s with
  | EmptyString => false
  | String c rest => Ascii.eqb c newline || has_newline rest
  end.

Fixpoint last_char (s : string) : option ascii :=
  match s with
  | EmptyString => None
  | String c EmptyString => Some c
  | String _ rest => last_char rest
  end.

(** A line that holds one JSON object and nothing around it. *)
Definition is_object_line (line : string) : bool :=
  startswith "{" line && endswith "}" line && negb (has_newline line).

(** [k] commas. *)
Fixpoint commas (k : nat) : string :=
  match k with
  | O => EmptyString
  | S k' => String "," (commas k')
  end.

(** Lines 41 to 45: what the handler makes of a call of
    [json.loads]. *)
Definition handled (r : outcome pyval) : outcome (option pyval) :=
  match r with
  | Returns entry => Returns (Some entry)
  | Raises JSONDecodeError => Returns None
  | Raises e => Raises e
  | Unmodelled => Unmodelled
  end.

(** What one line gives in the loop over the lines: a record, nothing,
    or the exception that leaves the loop. *)
Definition parse_line (loads : string → outcome pyval) (line : string)
  : outcome (option pyval) :=
  if is_empty (strip line) then Returns None
  else if is_empty (clean_line line) then Returns None
  else handled (loads (clean_line line)).

Definition returns {A} (o : outcome A) : bool :=
  match o with
  | Returns _ => true
  | _ => false
  end.

(** The record of a line that gives one. *)
Definition line_entry (loads : string → outcome pyval) (line : string)
  : option pyval :=
  match parse_line loads line with
  | Returns r => r
  | _ => None
  end.

Definition gives_record (loads : string → outcome pyval) (line : string)
  : bool :=
  match line_entry loads line with
  | Some _ => true
  | None => false
  end.

(** A line that gives no record and raises nothing: it is blank,
    nothing is left of it once cleaned, or [json.loads] rejects what is
    left with [JSONDecodeError]. *)
Definition gives_nothing (loads : string → outcome pyval) (line : string)
  : Prop :=
  is_empty (strip line) = true ∨
  is_empty (clean_line line) = true ∨
  loads (clean_line line) = Raises JSONDecodeError.

(** A line that holds a record: one JSON object that [loads] reads as a
    dictionary. *)
Definition record_line (loads : string → outcome pyval) (line : string)
  : bool :=
  is_object_line line &&
  match loads line with
  | Returns (PDict _) => true
  | _ => false
  end.


(** The three records of the scenario as lines of JSON text, and two
    lines that are not JSON. *)
Definition passwd_line : string := dq
  "{'datum': {'com.bbn.tc.schema.avro.cdm18.FileObject': {'uuid': 'F1', 'baseObject': {'properties': {'map': {'path': '/etc/passwd'}}}}}}".
Definition bash_line : string := dq
  "{'datum': {'com.bbn.tc.schema.avro.cdm18.Subject': {'uuid': 'P1', 'properties': {'map': {'name': 'bash'}}}}}".
Definition read_line : string := dq
  "{'datum': {'com.bbn.tc.schema.avro.cdm18.Event': {'type': 'read', 'subject': {'com.bbn.tc.schema.avro.cdm18.UUID': 'P1'}, 'predicateObject': {'com.bbn.tc.schema.avro.cdm18.UUID': 'F1'}}}}".
Definition torn_line : string := dq "{'datum': {'com.bbn.tc.sch".
Definition noise_line : string := "### rotated ###".

Definition scenario_array : string :=
  "[" +:+ passwd_line +:+ ", " +:+ bash_line +:+ ", " +:+ read_line +:+ "]".


(** A log in which the three records stand between trailing commas, the
    brackets of an array and two lines that are not JSON; the lines of
    an array of the three records, one on each line, with the same two
    lines between them; and the three records one on each line. *)
Definition recovered_content : string :=
  passwd_line +:+ ",,," +:+ String newline
    (noise_line +:+ String newline ("[" +:+ bash_line +:+ "," +:+ String newline
       (torn_line +:+ String newline (read_line +:+ "]")))).

Definition damaged_lines : list string :=
  ["[" +:+ passwd_line +:+ ","; noise_line; bash_line +:+ ","; torn_line;
   read_line +:+ "]"].

Definition record_lines : list string := [passwd_line; bash_line; read_line].

(** What the decoder needs of the grammar of JSON: the empty text is not
    a document, and two or more objects on lines of their own are not
    one document. *)
Definition separates_documents (loads : string → outcome pyval) : Prop :=
  loads EmptyString = Raises JSONDecodeError ∧
  ∀ lines, (2 ≤ length lines)%nat →
           Forall (fun line => record_line loads line = true) lines →
           loads (join_lines lines) = Raises JSONDecodeError.


(** Unfolding of the statements of a loop body. *)
Ltac unfold_stmt :=
  unfold try_continue, mbind, stmt_bind, mret, stmt_ret, eval, read, update,
    graph_add_node, graph_add_edge, file_nodes_add, file_names_add,
    uuid2name_set, incr_f, incr_p, incr_s in *.

(** ** Listings of the result, for the examples *)

Definition graph_listing (g : digraph)
  : list (key * option ntype) * list (key * key * pyval) :=
  (map_to_list (nodes g), map_to_list (edges g)).

Definition result_listing (result : option (digraph * gmap key digraph)) :=
  match result with
  | Some (g, file_subgraphs) =>
      Some (graph_listing g, map_to_list (graph_listing <$> file_subgraphs))
  | None => None
  end.

Definition outcome_listing
    (result : outcome (digraph * gmap key digraph)) :=
  match result with
  | Returns (g, file_subgraphs) =>
      Returns (graph_listing g,
               map_to_list (graph_listing <$> file_subgraphs))
  | Raises e => Raises e
  | Unmodelled => Unmodelled
  end.

(** A record whose declaration is processed to its end, with the type
    [t]: the counter of [t] goes up by one. *)
Definition declared_as (t : ntype) (entry : pyval) : bool :=
  match node_effect entry with
  | Declared t' _ _ => bool_decide (t' = t)
  | _ => false
  end.

(** The identifier a record binds in the index, with the name. *)
Definition binds (entry : pyval) : option (key * key) :=
  match node_effect entry with
  | Declared _ n u => Some (u, n)
  | _ => None
  end.

(** A line that holds a record as an element of an array written on
    several lines: after an opening bracket or not, and before a closing
    bracket or [k] commas. *)
Definition framed (opening closing : bool) (k : nat) (line : string)
  : string :=
  (if opening then "[" else EmptyString)
  +:+ line +:+ (if closing then "]" else commas k).

(** ** Saving the subgraphs *)

(** [os.path.join(a, b)] on a POSIX system. *)
Definition path_join (a b : string) : string :=
  if startswith "/" b then b
  else if is_empty a || endswith "/" a then a +:+ b
  else a +:+ "/" +:+ b.

(** Line 122: the name of the file of the subgraph number
    [graph_index]; the number is written in decimal. *)
Definition gml_file (output_path : string) (graph_index : Z) : string :=
  path_join output_path ("graph" +:+ pretty graph_index +:+ ".gml").

Definition output_dir : string := "output#".

Section Save.

(** [nx.write_gml]: it writes the graph to the file or raises. *)
Variable write_gml : digraph → string → outcome unit.

(** [save_graph_as_gml]: the call of [nx.write_gml] it makes, and the
    outcome of the call. *)
Definition save_graph_as_gml (sg : digraph) (output_path : string)
    (graph_index : Z) : (string * digraph) * outcome unit :=
  ((gml_file output_path graph_index, sg),
   write_gml sg (gml_file output_path graph_index)).

(** The last loop of the script, lines 143 to 145, over
    [behaviors.items()] numbered from [i]: the calls of [nx.write_gml]
    made, in their order, and how the loop ends.  The loop is not
    guarded: the first call that raises ends it. *)
Fixpoint save_from (i : Z) (items : list (key * digraph))
  : list (string * digraph) * outcome unit :=
  match items with
  | [] => ([], Returns tt)
  | (_, sg) :: rest =>
      let '(call, result) := save_graph_as_gml sg output_dir i in
      match result with
      | Returns _ =>
          let '(calls, result') := save_from (i + 1) rest in
          (call :: calls, result')
      | _ => ([call], result)
      end
  end.

Definition save_all (items : list (key * digraph))
  : list (string * digraph) * outcome unit :=
  save_from 1 items.

End Save.

(** The lines of an array of records written one element on each line:
    the first after the opening bracket, each followed by a comma. *)
Fixpoint array_lines (first : bool) (lines : list string) : list string :=
  match lines with
  | [] => []
  | line :: rest => framed first false 1 line :: array_lines false rest
  end.

(** A text [core] as a line may hold it: between white space, after an
    opening bracket or not, before a closing bracket or not, and
    followed by white space and [k] commas. *)
Definition dressed (pad_l : string) (opening : bool) (core : string)
    (closing : bool) (mid : string) (k : nat) (pad_r : string) : string :=
  pad_l +:+ (if opening then "[" else EmptyString) +:+ core
  +:+ (if closing then "]" else EmptyString) +:+ mid +:+ commas k +:+ pad_r.

(** [core] does not begin with what the cleaning takes away at the
    beginning of a line: white space or an opening bracket. *)
Definition starts_clean (core : string) : bool :=
  match core with
  | EmptyString => true
  | String c _ => negb (py_isspace c) && negb (Ascii.eqb c "[")
  end.

(** [core] does not end with what the cleaning takes away at the end of
    a line: white space, a comma or a closing bracket. *)
Definition ends_clean (core : string) : bool :=
  match last_char core with
  | None => true
  | Some c =>
      negb (py_isspace c) && negb (Ascii.eqb c ",") && negb (Ascii.eqb c "]")
  end.

(** [n] times the digit 1. *)
Fixpoint ones (n : nat) : string :=
  match n with
  | O => EmptyString
  | S n' => String "1" (ones n')
  end.

(** A record cut off in a number that has more digits than [int]
    converts. *)
Definition long_number_line : string := dq "{'pid': " +:+ ones 4301.




(** The record of the file of the scenario written on three lines: the
    second line is a JSON object, the first and the third are not JSON
    texts. *)
Definition spread_lines : list string :=
  [dq "{'datum': {'com.bbn.tc.schema.avro.cdm18.FileObject': {'uuid': 'F1', 'baseObject': {'properties': {'map':";
   dq "{'path': '/etc/passwd'}";
   "}}}}}"].


(** * Properties *)

(** ** The two passes, record by record *)

Lemma truthy_hash_not_none v n :
  truthy v = true → hash_key v = Some n → n ≠ KNone.
Proof. destruct v; simpl; intros; simplify_eq; done. Qed.

Lemma add_node_truthy v n t g :
  truthy v = true → hash_key v = Some n →
  add_node n t g = Some (DiGraph (<[n := Some t]> (nodes g)) (edges g)).
Proof.
  intros Hv Hn. pose proof (truthy_hash_not_none _ _ Hv Hn).
  by destruct n.
Qed.

Lemma state_eta st :
  State (main_graph st) (file_nodes st) (uuid2name st) (file_names st)
    (count_f st) (count_p st) (count_s st) = st.
Proof. by destruct st. Qed.

Lemma node_step_effect st entry :
  node_step st entry = apply_effect st (node_effect entry).
Proof.
  unfold node_step, node_body, node_effect, named.
  destruct (read_declaration entry) as [[fo fp|pu pn|no sa|]|];
    unfold_stmt; simpl; try done.
  - destruct (truthy fp) eqn:Hfp; [|done].
    destruct (hash_key fp) as [n|] eqn:Hn; [|done]. simpl.
    rewrite (add_node_truthy _ _ _ _ Hfp Hn). simpl.
    destruct (py_index fo "uuid") as [uuid|]; [|done]. simpl.
    by destruct (hash_key uuid).
  - destruct (truthy pu) eqn:Hpu; [|done]. simpl.
    destruct (truthy pn) eqn:Hpn; [|done].
    destruct (hash_key pn) as [n|] eqn:Hn; [|done]. simpl.
    rewrite (add_node_truthy _ _ _ _ Hpn Hn). simpl.
    by destruct (hash_key pu).
  - destruct (truthy sa) eqn:Hsa; [|done].
    destruct (hash_key sa) as [n|] eqn:Hn; [|done]. simpl.
    rewrite (add_node_truthy _ _ _ _ Hsa Hn). simpl.
    destruct (py_index no "uuid") as [uuid|]; [|done]. simpl.
    by destruct (hash_key uuid).
Qed.

Lemma touch_node_present n ns :
  is_Some (ns !! n) → touch_node n ns = Some ns.
Proof. intros [x Hx]. unfold touch_node. by rewrite Hx. Qed.

Lemma add_edge_present u v l g :
  is_Some (nodes g !! u) → is_Some (nodes g !! v) →
  add_edge u v l g = (DiGraph (nodes g) (<[(u, v) := l]> (edges g)), Some tt).
Proof.
  intros Hu Hv. unfold add_edge.
  rewrite (touch_node_present _ _ Hu), (touch_node_present _ _ Hv). done.
Qed.

Lemma edge_step_effect st entry :
  consistent st →
  edge_step st entry =
    match edge_effect (uuid2name st) (file_names st) entry with
    | Some (u, v, l) => set_edge u v l st
    | None => st
    end.
Proof.
  intros Hst. unfold edge_step, edge_body, edge_effect, both_known.
  destruct (read_event entry) as [[[[syscall src] tgt]|]|];
    unfold_stmt; simpl; try done.
  destruct (hash_key src) as [ks|]; simpl; [|done].
  destruct (uuid2name st !! ks) as [name1|] eqn:H1; simpl; [|done].
  destruct (hash_key tgt) as [kt|]; simpl; [|done].
  destruct (uuid2name st !! kt) as [name2|] eqn:H2; simpl; [|done].
  pose proof (names_are_nodes _ Hst _ _ H1) as Hn1.
  pose proof (names_are_nodes _ Hst _ _ H2) as Hn2.
  destruct (decide (name2 ∈ file_names st)); simpl;
    rewrite add_edge_present by done; done.
Qed.

(** A record that yields no edge leaves the state as it is, whatever
    the state. *)
Lemma edge_step_none st entry :
  edge_effect (uuid2name st) (file_names st) entry = None →
  edge_step st entry = st.
Proof.
  unfold edge_step, edge_body, edge_effect, both_known.
  destruct (read_event entry) as [[[[syscall src] tgt]|]|];
    unfold_stmt; simpl; try done.
  destruct (hash_key src) as [ks|]; simpl; [|done].
  destruct (uuid2name st !! ks) as [name1|] eqn:H1; simpl; [|done].
  destruct (hash_key tgt) as [kt|]; simpl; [|done].
  destruct (uuid2name st !! kt) as [name2|] eqn:H2; simpl; [|done].
  by destruct (decide (name2 ∈ file_names st)).
Qed.

(** ** The invariant holds throughout *)

Lemma consistent_init : consistent init_state.
Proof.
  split; simpl.
  - intros u n H. by rewrite lookup_empty in H.
  - intros n H. set_solver.
  - done.
  - intros n H. by rewrite lookup_empty in H.
  - intros n. by rewrite lookup_empty.
  - intros u v [x H]. by rewrite lookup_empty in H.
Qed.

Lemma elem_of_files_with t n X m :
  m ∈ files_with t n X ↔ (t = TFile ∧ m = n) ∨ m ∈ X.
Proof. destruct t; simpl; set_solver. Qed.

Lemma consistent_apply_effect st eff :
  consistent st → consistent (apply_effect st eff).
Proof.
  intros [H1 H2 H3 H4 H5 H6].
  destruct eff as [t n u|t n|]; [| |by split]; split; simpl.
  - intros u' n'. rewrite !lookup_insert. repeat case_decide; naive_solver.
  - intros m. rewrite elem_of_files_with, lookup_insert.
    case_decide; naive_solver.
  - intros m. rewrite !elem_of_files_with. set_solver.
  - intros m. rewrite elem_of_files_with, lookup_insert.
    case_decide; naive_solver.
  - intros m. rewrite lookup_insert. case_decide; naive_solver.
  - intros a b Hab. rewrite !lookup_insert.
    destruct (H6 a b Hab). repeat case_decide; naive_solver.
  - intros u' n' Hu. rewrite lookup_insert. case_decide; naive_solver.
  - intros m. rewrite elem_of_files_with, lookup_insert.
    case_decide; naive_solver.
  - intros m Hm. rewrite elem_of_files_with. right. by apply H3.
  - intros m. rewrite elem_of_files_with, lookup_insert.
    case_decide; naive_solver.
  - intros m. rewrite lookup_insert. case_decide; naive_solver.
  - intros a b Hab. rewrite !lookup_insert.
    destruct (H6 a b Hab). repeat case_decide; naive_solver.
Qed.

Lemma consistent_node_step st entry :
  consistent st → consistent (node_step st entry).
Proof. rewrite node_step_effect. apply consistent_apply_effect. Qed.

Lemma consistent_node_pass log_entries st :
  consistent st → consistent (node_pass log_entries st).
Proof.
  revert st. induction log_entries as [|e es IH]; intros st Hst; [done|].
  apply IH. by apply consistent_node_step.
Qed.

Lemma consistent_set_edge u v l st :
  consistent st →
  is_Some (nodes (main_graph st) !! u) →
  is_Some (nodes (main_graph st) !! v) →
  consistent (set_edge u v l st).
Proof.
  intros [H1 H2 H3 H4 H5 H6] Hu Hv. split; simpl; try done.
  intros a b. rewrite lookup_insert. case_decide; [|by auto].
  by simplify_eq.
Qed.

Lemma edge_effect_nodes st entry u v l :
  consistent st →
  edge_effect (uuid2name st) (file_names st) entry = Some (u, v, l) →
  is_Some (nodes (main_graph st) !! u) ∧ is_Some (nodes (main_graph st) !! v).
Proof.
  intros Hst. unfold edge_effect.
  destruct (read_event entry) as [[[[syscall src] tgt]|]|]; try done.
  destruct (hash_key src) as [ks|]; simpl; [|done].
  destruct (uuid2name st !! ks) as [name1|] eqn:E1; simpl; [|done].
  destruct (hash_key tgt) as [kt|]; simpl; [|done].
  destruct (uuid2name st !! kt) as [name2|] eqn:E2; simpl; [|done].
  pose proof (names_are_nodes _ Hst _ _ E1).
  pose proof (names_are_nodes _ Hst _ _ E2).
  case_decide; intros; simplify_eq; done.
Qed.

Lemma consistent_edge_step st entry :
  consistent st → consistent (edge_step st entry).
Proof.
  intros Hst. rewrite edge_step_effect by done.
  destruct (edge_effect _ _ entry) as [[[u v] l]|] eqn:E; [|done].
  destruct (edge_effect_nodes _ _ _ _ _ Hst E).
  by apply consistent_set_edge.
Qed.

Lemma consistent_edge_pass log_entries st :
  consistent st → consistent (edge_pass log_entries st).
Proof.
  revert st. induction log_entries as [|e es IH]; intros st Hst; [done|].
  apply IH. by apply consistent_edge_step.
Qed.

Lemma consistent_passes log_entries : consistent (passes log_entries).
Proof.
  apply consistent_edge_pass, consistent_node_pass, consistent_init.
Qed.

Lemma edge_step_frame st entry :
  consistent st → same_but_edges st (edge_step st entry).
Proof.
  intros Hst. rewrite edge_step_effect by done.
  by destruct (edge_effect _ _ entry) as [[[u v] l]|].
Qed.

Lemma edge_pass_frame log_entries st :
  consistent st → same_but_edges st (edge_pass log_entries st).
Proof.
  revert st. induction log_entries as [|e es IH]; intros st Hst; [done|].
  simpl. destruct (edge_step_frame st e Hst) as (?&?&?&?&?&?&?).
  destruct (IH (edge_step st e) (consistent_edge_step _ _ Hst))
    as (?&?&?&?&?&?&?).
  unfold edge_pass in *. repeat split; congruence.
Qed.

(** The first loop leaves the edges alone. *)
Lemma node_pass_edges log_entries st :
  edges (main_graph (node_pass log_entries st)) = edges (main_graph st).
Proof.
  revert st. induction log_entries as [|e es IH]; intros st; [done|].
  simpl. unfold node_pass in IH. rewrite IH, node_step_effect.
  by destruct (node_effect e).
Qed.

(** ** The second loop over a whole log *)

Lemma edge_pass_app es1 es2 st :
  edge_pass (es1 ++ es2) st = edge_pass es2 (edge_pass es1 st).
Proof. apply fold_left_app. Qed.

Lemma node_pass_app es1 es2 st :
  node_pass (es1 ++ es2) st = node_pass es2 (node_pass es1 st).
Proof. apply fold_left_app. Qed.

(** In the second loop the yield of a record is the same at every
    point: it depends on the index and on the file names only. *)
Lemma edge_effect_stable es st entry :
  consistent st →
  edge_effect (uuid2name (edge_pass es st)) (file_names (edge_pass es st)) entry
  = edge_effect (uuid2name st) (file_names st) entry.
Proof.
  intros Hst. destruct (edge_pass_frame es st Hst) as (_&_&->&->&_). done.
Qed.

Lemma edge_pass_no_yield es st :
  (∀ e, e ∈ es → edge_effect (uuid2name st) (file_names st) e = None) →
  edge_pass es st = st.
Proof.
  induction es as [|e es IH]; intros Hes; [done|]. simpl.
  rewrite edge_step_none by (apply Hes; left).
  apply IH. intros e' He'. apply Hes. by right.
Qed.

Lemma edge_pass_edge_kept es st k :
  consistent st →
  is_Some (edges (main_graph st) !! k) →
  is_Some (edges (main_graph (edge_pass es st)) !! k).
Proof.
  revert st. induction es as [|e es IH]; intros st Hst Hk; [done|].
  simpl. apply IH; [by apply consistent_edge_step|].
  rewrite edge_step_effect by done.
  destruct (edge_effect _ _ e) as [[[u v] l]|]; [|done]. simpl.
  rewrite lookup_insert. by case_decide.
Qed.

Lemma edge_effect_absent index names entry syscall src tgt :
  read_event entry = Some (Some (syscall, src, tgt)) →
  known index src = None ∨ known index tgt = None →
  edge_effect index names entry = None.
Proof.
  intros Hev Habs. unfold edge_effect, known in *. rewrite Hev.
  destruct (hash_key src) as [ks|]; simpl in *; [|done].
  destruct (index !! ks) as [name1|]; simpl in *; [|done].
  destruct Habs as [?|Habs]; [done|].
  destruct (hash_key tgt) as [kt|]; simpl in *; [|done].
  by rewrite Habs.
Qed.

Lemma edge_effect_not_event index names entry :
  read_event entry = Some None → edge_effect index names entry = None.
Proof. unfold edge_effect. by intros ->. Qed.

(** The last loop never raises: every file node is a node of the graph. *)
Lemma extract_total g (files : gset key) :
  (∀ n, n ∈ files → is_Some (nodes g !! n)) →
  is_Some (extract g files).
Proof.
  intros Hfiles. unfold extract.
  assert (Hel : ∀ n, n ∈ elements files → is_Some (nodes g !! n)).
  { intros n Hn. apply Hfiles. by apply elem_of_elements. }
  induction (elements files) as [|n l IH]; simpl; [done|].
  destruct IH as [subs ->]. { intros m Hm. apply Hel. by right. }
  simpl. unfold behavior, descendants.
  rewrite decide_True by (apply Hel; left). done.
Qed.

Lemma build_total log_entries : is_Some (build_from_entries log_entries).
Proof.
  unfold build_from_entries.
  destruct (extract_total (main_graph (passes log_entries))
              (file_nodes (passes log_entries))) as [subs ->]; [|done].
  apply file_nodes_are_nodes, consistent_passes.
Qed.

(** ** Dangling references *)

(** C4: an event record whose subject identifier or target identifier is
    not in the index built by the first loop adds no edge: the second
    loop ends in the state it reaches without the record, the run ends
    with a result, and when no other record of the log is an event the
    graph has no edge at all. *)
Theorem dangling_event_adds_no_edge
    (pre post : list pyval) (entry syscall src tgt : pyval) :
  read_event entry = Some (Some (syscall, src, tgt)) →
  known (uuid2name (node_pass (pre ++ entry :: post) init_state)) src = None ∨
  known (uuid2name (node_pass (pre ++ entry :: post) init_state)) tgt = None →
  edge_pass (pre ++ entry :: post) (node_pass (pre ++ entry :: post) init_state)
  = edge_pass (pre ++ post) (node_pass (pre ++ entry :: post) init_state) ∧
  is_Some (build_from_entries (pre ++ entry :: post)) ∧
  ((∀ e, e ∈ pre ++ post → read_event e = Some None) →
   edges (main_graph (passes (pre ++ entry :: post))) = ∅).
Proof.
  intros Hev Habs.
  set (st1 := node_pass (pre ++ entry :: post) init_state) in *.
  assert (Hst1 : consistent st1) by apply consistent_node_pass, consistent_init.
  assert (Hskip : edge_pass (pre ++ entry :: post) st1
                  = edge_pass (pre ++ post) st1).
  { rewrite !edge_pass_app. simpl. f_equal.
    apply edge_step_none. rewrite edge_effect_stable by done.
    by eapply edge_effect_absent. }
  split; [done|]. split; [apply build_total|].
  intros Hnone. unfold passes. fold st1. rewrite Hskip.
  rewrite edge_pass_no_yield.
  - unfold st1. by rewrite node_pass_edges.
  - intros e He. by apply edge_effect_not_event, Hnone.
Qed.

Lemma dangling_event_witness :
  edge_pass [file_record (PStr "F1") (PStr "/etc/passwd");
             event_record (PStr "read") (PStr "P9") (PStr "F1")]
    (node_pass [file_record (PStr "F1") (PStr "/etc/passwd");
                event_record (PStr "read") (PStr "P9") (PStr "F1")] init_state)
  = edge_pass [file_record (PStr "F1") (PStr "/etc/passwd")]
      (node_pass [file_record (PStr "F1") (PStr "/etc/passwd");
                  event_record (PStr "read") (PStr "P9") (PStr "F1")] init_state) ∧
  is_Some (build_from_entries
             [file_record (PStr "F1") (PStr "/etc/passwd");
              event_record (PStr "read") (PStr "P9") (PStr "F1")]) ∧
  ((∀ e, e ∈ [file_record (PStr "F1") (PStr "/etc/passwd")] →
         read_event e = Some None) →
   edges (main_graph (passes
             [file_record (PStr "F1") (PStr "/etc/passwd");
              event_record (PStr "read") (PStr "P9") (PStr "F1")])) = ∅).
Proof.
  apply (dangling_event_adds_no_edge
           [file_record (PStr "F1") (PStr "/etc/passwd")] []
           (event_record (PStr "read") (PStr "P9") (PStr "F1"))
           (PStr "read") (PStr "P9") (PStr "F1")).
  - reflexivity.
  - left. vm_compute. reflexivity.
Defined.

(** ** The first loop over a whole log *)

Lemma node_step_file_nodes_mono st entry n :
  n ∈ file_nodes st → n ∈ file_nodes (node_step st entry).
Proof.
  rewrite node_step_effect. destruct (node_effect entry) as [t m u|t m|];
    simpl; rewrite ?elem_of_files_with; auto.
Qed.

Lemma node_step_file_names_mono st entry n :
  n ∈ file_names st → n ∈ file_names (node_step st entry).
Proof.
  rewrite node_step_effect. destruct (node_effect entry) as [t m u|t m|];
    simpl; rewrite ?elem_of_files_with; auto.
Qed.

Lemma node_pass_file_nodes_mono es st n :
  n ∈ file_nodes st → n ∈ file_nodes (node_pass es st).
Proof.
  revert st. induction es as [|e es IH]; intros st Hn; [done|].
  simpl. by apply IH, node_step_file_nodes_mono.
Qed.

Lemma node_pass_file_names_mono es st n :
  n ∈ file_names st → n ∈ file_names (node_pass es st).
Proof.
  revert st. induction es as [|e es IH]; intros st Hn; [done|].
  simpl. by apply IH, node_step_file_names_mono.
Qed.

(** The file names are the paths of the file declarations that were
    processed to their end. *)
Lemma file_names_declared es st n :
  n ∈ file_names (node_pass es st) ↔
  n ∈ file_names st ∨ ∃ e u, e ∈ es ∧ node_effect e = Declared TFile n u.
Proof.
  revert st. induction es as [|e es IH]; intros st; simpl.
  - split; [by left|]. intros [?|(e & u & He & _)]; [done|]. inversion He.
  - unfold node_pass in IH. rewrite IH. split.
    + intros [Hn|(e' & u & He' & Heff)].
      * rewrite node_step_effect in Hn.
        destruct (node_effect e) as [t m u|t m|] eqn:E; simpl in Hn; auto.
        apply elem_of_files_with in Hn as [[-> ->]|Hn]; [|by left].
        right. exists e, u. split; [left|done].
      * right. exists e', u. split; [by right|done].
    + intros [Hn|(e' & u & He' & Heff)].
      * left. by apply node_step_file_names_mono.
      * apply elem_of_cons in He' as [->|He'].
        -- left. rewrite node_step_effect, Heff. simpl. set_solver.
        -- right. by exists e', u.
Qed.

(** The file nodes are the nodes a file declaration added. *)
Lemma file_nodes_declared es st n :
  n ∈ file_nodes (node_pass es st) ↔
  n ∈ file_nodes st ∨ ∃ e, e ∈ es ∧ names_node e = Some (TFile, n).
Proof.
  revert st. induction es as [|e es IH]; intros st; simpl.
  - split; [by left|]. intros [?|(e & He & _)]; [done|]. inversion He.
  - unfold node_pass in IH. rewrite IH. unfold names_node. split.
    + intros [Hn|(e' & He' & Heff)].
      * rewrite node_step_effect in Hn.
        destruct (node_effect e) as [t m u|t m|] eqn:E; simpl in Hn; auto.
        -- apply elem_of_files_with in Hn as [[-> ->]|Hn]; [|by left].
           right. exists e. split; [left|by rewrite E].
        -- apply elem_of_files_with in Hn as [[-> ->]|Hn]; [|by left].
           right. exists e. split; [left|by rewrite E].
      * right. exists e'. split; [by right|done].
    + intros [Hn|(e' & He' & Heff)].
      * left. by apply node_step_file_nodes_mono.
      * apply elem_of_cons in He' as [->|He'].
        -- left. rewrite node_step_effect.
           destruct (node_effect e) as [t m u|t m|]; simplify_eq;
             simpl; set_solver.
        -- right. by exists e'.
Qed.

(** The type of a node is the one the last record that names it gave. *)
Lemma node_pass_last_type pre post entry st t n :
  names_node entry = Some (t, n) →
  (∀ e t', e ∈ post → names_node e ≠ Some (t', n)) →
  nodes (main_graph (node_pass (pre ++ entry :: post) st)) !! n
  = Some (Some t).
Proof.
  intros Hentry Hpost. rewrite node_pass_app. simpl.
  set (st' := node_pass pre st). clearbody st'.
  assert (Hn : nodes (main_graph (node_step st' entry)) !! n = Some (Some t)).
  { rewrite node_step_effect. unfold names_node in Hentry.
    destruct (node_effect entry); simplify_eq; simpl;
      by rewrite lookup_insert_eq. }
  revert Hn. generalize (node_step st' entry). clear st' Hentry.
  induction post as [|e post IH]; intros st' Hn; [done|].
  simpl. apply IH.
  - intros e' t' He'. apply Hpost. by right.
  - rewrite node_step_effect. pose proof (Hpost e) as He.
    unfold names_node in He.
    destruct (node_effect e) as [t' m u|t' m|]; simpl; try done.
    + rewrite lookup_insert_ne; [done|]. intros ->. by eapply He; [left|].
    + rewrite lookup_insert_ne; [done|]. intros ->. by eapply He; [left|].
Qed.

(** ** Direction of the edges *)

Lemma edge_effect_known index names entry syscall src tgt name1 name2 :
  read_event entry = Some (Some (syscall, src, tgt)) →
  known index src = Some name1 →
  known index tgt = Some name2 →
  edge_effect index names entry =
    Some (if decide (name2 ∈ names) then (name2, name1, syscall)
          else (name1, name2, syscall)).
Proof.
  unfold edge_effect, known. intros -> H1 H2.
  destruct (hash_key src) as [ks|]; simpl in *; [|done]. rewrite H1. simpl.
  destruct (hash_key tgt) as [kt|]; simpl in *; [|done]. by rewrite H2.
Qed.

Lemma edge_pass_snoc es entry st :
  edge_pass (es ++ [entry]) st = edge_step (edge_pass es st) entry.
Proof. by rewrite edge_pass_app. Qed.

Lemma edge_step_yield es st entry u v l :
  consistent st →
  edge_effect (uuid2name st) (file_names st) entry = Some (u, v, l) →
  edges (main_graph (edge_pass (es ++ [entry]) st))
  = <[(u, v) := l]> (edges (main_graph (edge_pass es st))).
Proof.
  intros Hst Heff. rewrite edge_pass_snoc.
  rewrite edge_step_effect by by apply consistent_edge_pass.
  rewrite edge_effect_stable by done. by rewrite Heff.
Qed.

Lemma edge_in_final_graph pre post st entry u v l :
  consistent st →
  edge_effect (uuid2name st) (file_names st) entry = Some (u, v, l) →
  is_Some (edges (main_graph (edge_pass (pre ++ entry :: post) st)) !! (u, v)).
Proof.
  intros Hst Heff.
  replace (pre ++ entry :: post) with ((pre ++ [entry]) ++ post)
    by by rewrite <- app_assoc.
  rewrite edge_pass_app. apply edge_pass_edge_kept.
  { by apply consistent_edge_pass. }
  rewrite (edge_step_yield _ _ _ _ _ _ Hst Heff), lookup_insert_eq. done.
Qed.




(** ** One edge for each ordered pair *)

Lemma edge_pass_lookup_kept es st u v :
  consistent st →
  (∀ e l, e ∈ es →
          edge_effect (uuid2name st) (file_names st) e ≠ Some (u, v, l)) →
  edges (main_graph (edge_pass es st)) !! (u, v)
  = edges (main_graph st) !! (u, v).
Proof.
  intros Hst. induction es as [|e es IH] using rev_ind; intros Hes; [done|].
  rewrite edge_pass_snoc, edge_step_effect by by apply consistent_edge_pass.
  rewrite edge_effect_stable by done.
  destruct (edge_effect _ _ e) as [[[a b] l]|] eqn:E; simpl.
  - rewrite lookup_insert_ne.
    + apply IH. intros e' l' He'. apply Hes. apply elem_of_app. by left.
    + intros [= -> ->]. eapply (Hes e l); [|done]. apply elem_of_app. right. left.
  - apply IH. intros e' l' He'. apply Hes. apply elem_of_app. by left.
Qed.

(** C3, as the code has it: the graph holds one edge for each ordered
    pair of nodes.  A record that yields an edge from [u] to [v] puts
    its operation on that edge in the place of the one an earlier record
    left there, and the final graph shows, on the edge from [u] to [v],
    the operation of the last record of the log that yields it. *)
Theorem last_operation_wins
    (pre post : list pyval) (entry : pyval) (u v : key) (l : pyval) :
  edge_effect (uuid2name (node_pass (pre ++ entry :: post) init_state))
    (file_names (node_pass (pre ++ entry :: post) init_state)) entry
  = Some (u, v, l) →
  (∀ e l', e ∈ post →
     edge_effect (uuid2name (node_pass (pre ++ entry :: post) init_state))
       (file_names (node_pass (pre ++ entry :: post) init_state)) e
     ≠ Some (u, v, l')) →
  edges (main_graph (edge_pass (pre ++ [entry])
           (node_pass (pre ++ entry :: post) init_state)))
  = <[(u, v) := l]>
      (edges (main_graph (edge_pass pre
         (node_pass (pre ++ entry :: post) init_state)))) ∧
  edges (main_graph (passes (pre ++ entry :: post))) !! (u, v) = Some l.
Proof.
  intros Heff Hlast.
  set (st1 := node_pass (pre ++ entry :: post) init_state) in *.
  assert (Hst1 : consistent st1) by apply consistent_node_pass, consistent_init.
  split; [by apply edge_step_yield|].
  unfold passes. fold st1.
  replace (pre ++ entry :: post) with ((pre ++ [entry]) ++ post)
    by by rewrite <- app_assoc.
  rewrite edge_pass_app, edge_pass_lookup_kept.
  - by rewrite (edge_step_yield _ _ _ _ _ _ Hst1 Heff), lookup_insert_eq.
  - by apply consistent_edge_pass.
  - intros e l' He. rewrite edge_effect_stable by done. by apply Hlast.
Qed.

Lemma last_operation_wins_witness :
  edges (main_graph (edge_pass
           [passwd_record; bash_record; read_record; write_record]
           (node_pass [passwd_record; bash_record; read_record; write_record]
              init_state)))
  = <[(KStr "/etc/passwd", KStr "bash") := PStr "write"]>
      (edges (main_graph (edge_pass [passwd_record; bash_record; read_record]
         (node_pass [passwd_record; bash_record; read_record; write_record]
            init_state)))) ∧
  edges (main_graph (passes
           [passwd_record; bash_record; read_record; write_record]))
    !! (KStr "/etc/passwd", KStr "bash") = Some (PStr "write").
Proof.
  apply (last_operation_wins [passwd_record; bash_record; read_record] []
           write_record (KStr "/etc/passwd") (KStr "bash") (PStr "write")).
  - vm_compute. reflexivity.
  - intros e l' He. inversion He.
Defined.

(** Two events between the same two entities, one [read] and one
    [write]: each yields the edge from the file to the process, and the
    final graph has that one edge, with [write] on it. *)
Lemma parallel_edges_not_kept :
  edge_effect
    (uuid2name (node_pass [passwd_record; bash_record; read_record; write_record]
                  init_state))
    (file_names (node_pass [passwd_record; bash_record; read_record; write_record]
                   init_state))
    read_record
  = Some (KStr "/etc/passwd", KStr "bash", PStr "read") ∧
  edge_effect
    (uuid2name (node_pass [passwd_record; bash_record; read_record; write_record]
                  init_state))
    (file_names (node_pass [passwd_record; bash_record; read_record; write_record]
                   init_state))
    write_record
  = Some (KStr "/etc/passwd", KStr "bash", PStr "write") ∧
  map_to_list (edges (main_graph (passes
    [passwd_record; bash_record; read_record; write_record])))
  = [((KStr "/etc/passwd", KStr "bash"), PStr "write")].
Proof. vm_compute. done. Qed.

(** ** Records with a missing field *)

Lemma node_step_skipped st entry :
  node_effect entry = Skipped → node_step st entry = st.
Proof. rewrite node_step_effect. by intros ->. Qed.

(** C5, as the code has it: a record of which the first loop cannot
    read the declaration, a file declaration without a path, a process
    declaration without an identifier or without a name and a socket
    declaration without a remote address leave the state as it is; so
    does, in the second loop, a record that cannot be read as an event
    and an event without a subject identifier or without a target
    identifier, as long as no declaration gave [None] as its identifier.
    An event that has no operation and whose identifiers are both in the
    index sets its edge, with [None] as the operation. *)
Theorem missing_field (st : state) (entry : pyval) :
  consistent st →
  (read_declaration entry = None ∨
   (∃ file_obj, read_declaration entry = Some (FileDecl file_obj PNone)) ∨
   (∃ name, read_declaration entry = Some (ProcessDecl PNone name)) ∨
   (∃ uuid, read_declaration entry = Some (ProcessDecl uuid PNone)) ∨
   (∃ netflow_obj,
      read_declaration entry = Some (SocketDecl netflow_obj PNone)) →
   node_step st entry = st) ∧
  (uuid2name st !! KNone = None →
   read_event entry = None ∨
   (∃ syscall src tgt,
      read_event entry = Some (Some (syscall, src, tgt)) ∧
      (src = PNone ∨ tgt = PNone)) →
   edge_step st entry = st) ∧
  (∀ src tgt name1 name2,
     read_event entry = Some (Some (PNone, src, tgt)) →
     known (uuid2name st) src = Some name1 →
     known (uuid2name st) tgt = Some name2 →
     edge_step st entry =
       if decide (name2 ∈ file_names st) then set_edge name2 name1 PNone st
       else set_edge name1 name2 PNone st).
Proof.
  intros Hst. split; [|split].
  - intros Hlack. apply node_step_skipped. unfold node_effect, named.
    destruct Hlack as [->|[[fo ->]|[[nm ->]|[[uu ->]|[no ->]]]]]; simpl;
      try done.
    by destruct (truthy uu).
  - intros Hnone Hlack. apply edge_step_none.
    destruct Hlack as [Hraise|(syscall & src & tgt & Hev & Hlack)].
    + unfold edge_effect. by rewrite Hraise.
    + eapply edge_effect_absent; [done|].
      unfold known. destruct Hlack as [-> | ->]; simpl; auto.
  - intros src tgt name1 name2 Hev H1 H2.
    rewrite edge_step_effect by done.
    rewrite (edge_effect_known _ _ _ _ _ _ _ _ Hev H1 H2).
    by case_decide.
Qed.

Lemma missing_field_witness :
  edge_step (node_pass [passwd_record; bash_record] init_state) untyped_record
  = set_edge (KStr "/etc/passwd") (KStr "bash") PNone
      (node_pass [passwd_record; bash_record] init_state).
Proof.
  destruct (missing_field (node_pass [passwd_record; bash_record] init_state)
              untyped_record) as (_ & _ & Hyield).
  { apply consistent_node_pass, consistent_init. }
  rewrite (Hyield (PStr "P1") (PStr "F1") (KStr "bash") (KStr "/etc/passwd"));
    [|reflexivity|vm_compute; reflexivity|vm_compute; reflexivity].
  rewrite decide_True; [reflexivity|vm_compute; reflexivity].
Defined.

(** An event record that has subject and target but no operation: it
    is read with [None] as the operation and the graph gets its edge. *)
Lemma event_without_operation_yields_edge :
  read_event untyped_record = Some (Some (PNone, PStr "P1", PStr "F1")) ∧
  map_to_list (edges (main_graph (passes
    [passwd_record; bash_record; untyped_record])))
  = [((KStr "/etc/passwd", KStr "bash"), PNone)].
Proof. vm_compute. done. Qed.

(** ** The dictionary of the subgraphs *)

Lemma extract_list_lookup g (l : list key) (subs : gmap key digraph) n :
  foldr (fun file_node acc =>
           file_subgraphs ← acc;
           sg ← behavior g file_node;
           Some (<[file_node := sg]> file_subgraphs))
        (Some (∅ : gmap key digraph)) l = Some subs →
  subs !! n = if decide (n ∈ l) then behavior g n else None.
Proof.
  revert subs. induction l as [|m l IH]; intros subs; simpl.
  - intros [= <-]. rewrite lookup_empty.
    destruct (decide (n ∈ [])) as [Hn|]; [inversion Hn|done].
  - destruct (foldr _ _ l) as [subs'|]; simpl; [|done].
    destruct (behavior g m) as [sg|] eqn:Hm; simpl; [|done].
    intros [= <-]. rewrite lookup_insert.
    destruct (decide (m = n)) as [->|Hmn].
    + rewrite decide_True by left. done.
    + rewrite (IH subs' eq_refl).
      destruct (decide (n ∈ l)) as [Hl|Hl].
      * rewrite decide_True by by right. done.
      * rewrite decide_False; [done|].
        intros [->|?]%elem_of_cons; done.
Qed.

Lemma extract_lookup g (files : gset key) subs n :
  extract g files = Some subs →
  subs !! n = if decide (n ∈ files) then behavior g n else None.
Proof.
  intros H. rewrite (extract_list_lookup _ _ _ n H).
  destruct (decide (n ∈ files)) as [Hn|Hn].
  - rewrite decide_True; [done|]. by apply elem_of_elements.
  - rewrite decide_False; [done|]. by rewrite elem_of_elements.
Qed.

Lemma passes_file_nodes log_entries :
  file_nodes (passes log_entries)
  = file_nodes (node_pass log_entries init_state).
Proof.
  unfold passes.
  by destruct (edge_pass_frame log_entries (node_pass log_entries init_state))
    as (_&->&_); [apply consistent_node_pass, consistent_init|].
Qed.

Lemma passes_file_names log_entries :
  file_names (passes log_entries)
  = file_names (node_pass log_entries init_state).
Proof.
  unfold passes.
  by destruct (edge_pass_frame log_entries (node_pass log_entries init_state))
    as (_&_&_&->&_); [apply consistent_node_pass, consistent_init|].
Qed.

Lemma passes_uuid2name log_entries :
  uuid2name (passes log_entries)
  = uuid2name (node_pass log_entries init_state).
Proof.
  unfold passes.
  by destruct (edge_pass_frame log_entries (node_pass log_entries init_state))
    as (_&_&->&_); [apply consistent_node_pass, consistent_init|].
Qed.

Lemma passes_nodes log_entries :
  nodes (main_graph (passes log_entries))
  = nodes (main_graph (node_pass log_entries init_state)).
Proof.
  unfold passes.
  by destruct (edge_pass_frame log_entries (node_pass log_entries init_state))
    as (->&_); [apply consistent_node_pass, consistent_init|].
Qed.

(** Every file node has its subgraph in the result. *)
Lemma file_node_has_subgraph log_entries n :
  n ∈ file_nodes (passes log_entries) →
  ∃ g subs sg, build_from_entries log_entries = Some (g, subs) ∧
               g = main_graph (passes log_entries) ∧
               is_Some (nodes g !! n) ∧
               behavior g n = Some sg ∧ subs !! n = Some sg.
Proof.
  intros Hn. unfold build_from_entries.
  pose proof (file_nodes_are_nodes _ (consistent_passes log_entries) n Hn) as Hnode.
  destruct (extract_total (main_graph (passes log_entries))
              (file_nodes (passes log_entries))) as [subs Hsubs].
  { apply file_nodes_are_nodes, consistent_passes. }
  rewrite Hsubs. simpl.
  pose proof (extract_lookup _ _ _ n Hsubs) as Hlook.
  rewrite decide_True in Hlook by done.
  assert (is_Some (behavior (main_graph (passes log_entries)) n)) as [sg Hsg].
  { unfold behavior, descendants. by rewrite decide_True. }
  exists (main_graph (passes log_entries)), subs, sg.
  rewrite Hlook. done.
Qed.

(** ** A declaration that fails half way *)



(** ** Reachability *)

Section Reach.

Variable g : digraph.

Lemma elem_of_expand (seen : gset key) v :
  v ∈ expand g seen ↔ v ∈ seen ∨ ∃ u, u ∈ seen ∧ edge_rel g u v.
Proof.
  unfold expand, edge_rel. rewrite elem_of_union, elem_of_map.
  split; intros [Hv|Hv]; auto; right.
  - destruct Hv as ([u v'] & -> & [Hu Hd]%elem_of_filter).
    apply elem_of_dom in Hd. by exists u.
  - destruct Hv as (u & Hu & Huv). exists (u, v). split; [done|].
    apply elem_of_filter. split; [done|]. by apply elem_of_dom.
Qed.

Lemma expand_subseteq (seen : gset key) : seen ⊆ expand g seen.
Proof. intros v Hv. apply elem_of_expand. by left. Qed.

Lemma rounds_sound source k v :
  v ∈ Nat.iter k (expand g) {[source]} → rtc (edge_rel g) source v.
Proof.
  revert v. induction k as [|k IH]; intros v; simpl.
  - intros ->%elem_of_singleton. done.
  - intros [Hv|(u & Hu & Huv)]%elem_of_expand; [by apply IH|].
    eapply rtc_r; [by apply IH|done].
Qed.

Lemma closed_complete (seen : gset key) source v :
  expand g seen = seen → source ∈ seen →
  rtc (edge_rel g) source v → v ∈ seen.
Proof.
  intros Hfix Hsource. revert v. apply rtc_ind_r; [done|].
  intros u v _ Huv Hu.
  rewrite <- Hfix. apply elem_of_expand. right. by exists u.
Qed.

Hypothesis edges_in_nodes :
  ∀ u v, edge_rel g u v →
         is_Some (nodes g !! u) ∧ is_Some (nodes g !! v).

Lemma rounds_in_nodes source k :
  is_Some (nodes g !! source) →
  Nat.iter k (expand g) {[source]} ⊆ dom (nodes g).
Proof.
  intros Hsource. induction k as [|k IH]; simpl; intros v.
  - intros ->%elem_of_singleton. by apply elem_of_dom.
  - intros [Hv|(u & Hu & Huv)]%elem_of_expand; [by apply IH|].
    apply elem_of_dom. by destruct (edges_in_nodes u v Huv).
Qed.

Lemma rounds_grow source k :
  expand g (Nat.iter k (expand g) {[source]})
    = Nat.iter k (expand g) {[source]} ∨
  (k + 1 ≤ size (Nat.iter k (expand g) {[source]}))%nat.
Proof.
  induction k as [|k IH].
  - right. change (Nat.iter 0 (expand g) {[source]})
      with ({[source]} : gset key).
    rewrite size_singleton. lia.
  - rewrite !Nat.iter_succ.
    set (seen := Nat.iter k (expand g) {[source]}) in *.
    destruct IH as [Hfix|Hsize]; [left; by rewrite !Hfix|].
    destruct (decide (expand g (expand g seen) = expand g seen)) as [|Hne];
      [by left|right].
    destruct (decide (expand g seen = seen)) as [Hfix|Hne'].
    { by rewrite !Hfix in Hne. }
    assert (seen ⊂ expand g seen) as Hlt%subset_size.
    { split; [apply expand_subseteq|]. intros Hsub. apply Hne'.
      apply set_eq. intros v. split; [apply Hsub|apply expand_subseteq]. }
    lia.
Qed.

Lemma reach_from_closed source :
  is_Some (nodes g !! source) →
  expand g (reach_from g source) = reach_from g source.
Proof.
  intros Hsource. unfold reach_from.
  destruct (rounds_grow source (size (nodes g))) as [Hfix|Hsize]; [done|].
  pose proof (subseteq_size _ _ (rounds_in_nodes source (size (nodes g)) Hsource))
    as Hle.
  rewrite size_dom in Hle. lia.
Qed.

Lemma elem_of_reach_from source v :
  is_Some (nodes g !! source) →
  v ∈ reach_from g source ↔ rtc (edge_rel g) source v.
Proof.
  intros Hsource. split; [apply rounds_sound|].
  apply closed_complete; [by apply reach_from_closed|].
  unfold reach_from. generalize (size (nodes g)) as k.
  induction k as [|k IH]; simpl; [set_solver|by apply expand_subseteq].
Qed.

(** The node set of the behaviour subgraph: the file node and what
    can be reached from it along one edge or more. *)
Lemma elem_of_behavior_nodes source ds v :
  descendants g source = Some ds →
  v ∈ {[source]} ∪ ds ↔ v = source ∨ tc (edge_rel g) source v.
Proof.
  unfold descendants. case_decide as Hsource; [|done]. intros [= <-].
  rewrite elem_of_union, elem_of_singleton, elem_of_difference,
    elem_of_singleton, (elem_of_reach_from _ _ Hsource), rtc_tc.
  destruct (decide (v = source)); naive_solver.
Qed.

End Reach.

(** ** The behaviour subgraphs *)

Lemma subgraph_nodes_lookup g (nbunch : gset key) m t :
  nodes (subgraph g nbunch) !! m = Some t ↔
  nodes g !! m = Some t ∧ m ∈ nbunch.
Proof. unfold subgraph. simpl. by rewrite map_lookup_filter_Some. Qed.

Lemma subgraph_edges_lookup g (nbunch : gset key) u v l :
  edges (subgraph g nbunch) !! (u, v) = Some l ↔
  edges g !! (u, v) = Some l ∧ u ∈ nbunch ∧ v ∈ nbunch.
Proof. unfold subgraph. simpl. by rewrite map_lookup_filter_Some. Qed.

Lemma passes_edges_in_nodes log_entries u v :
  edge_rel (main_graph (passes log_entries)) u v →
  is_Some (nodes (main_graph (passes log_entries)) !! u) ∧
  is_Some (nodes (main_graph (passes log_entries)) !! v).
Proof. apply edges_join_nodes, consistent_passes. Qed.

Lemma tc_first_edge g u v :
  tc (edge_rel g) u v → ∃ w, edge_rel g u w.
Proof. intros [? ? H|? w ? H _]; eauto. Qed.

(** C2: every file node [n] of the final graph (a node in the set of
    file nodes, which holds every node whose type is file) has one entry
    in the dictionary of the subgraphs, and only file nodes have one.
    The nodes of the subgraph of [n] are [n] and the nodes that can be
    reached from [n] along one edge or more, with their attribute; its
    edges are the edges of the graph between two of these nodes, with
    their operation.  A file node without outgoing edge has a subgraph
    made of itself and no edge. *)
Theorem behavior_subgraph (log_entries : list pyval) (n : key) :
  n ∈ file_nodes (passes log_entries) ∨
  nodes (main_graph (passes log_entries)) !! n = Some (Some TFile) →
  ∃ g subs sg,
    build_from_entries log_entries = Some (g, subs) ∧
    g = main_graph (passes log_entries) ∧
    (∀ m, is_Some (subs !! m) ↔ m ∈ file_nodes (passes log_entries)) ∧
    subs !! n = Some sg ∧
    (∀ m, is_Some (nodes sg !! m) ↔ m = n ∨ tc (edge_rel g) n m) ∧
    (∀ m t, nodes sg !! m = Some t → nodes g !! m = Some t) ∧
    (∀ u v l, edges sg !! (u, v) = Some l ↔
              edges g !! (u, v) = Some l ∧
              is_Some (nodes sg !! u) ∧ is_Some (nodes sg !! v)) ∧
    ((∀ v, edges g !! (n, v) = None) →
     dom (nodes sg) = {[n]} ∧ edges sg = ∅).
Proof.
  intros Hn.
  pose proof (consistent_passes log_entries) as Hst.
  assert (Hfile : n ∈ file_nodes (passes log_entries)).
  { destruct Hn as [?|Htag]; [done|]. by apply (file_tag_in_file_nodes _ Hst). }
  clear Hn.
  destruct (file_node_has_subgraph log_entries n Hfile)
    as (g & subs & sg & Hbuild & -> & Hnode & Hsg & Hsub).
  set (g := main_graph (passes log_entries)) in *.
  exists g, subs, sg. split; [done|]. split; [done|].
  assert (Hsubs : extract g (file_nodes (passes log_entries)) = Some subs).
  { unfold build_from_entries in Hbuild. fold g in Hbuild.
    destruct (extract g _) as [subs'|]; simpl in Hbuild; by simplify_eq. }
  unfold behavior in Hsg.
  destruct (descendants g n) as [ds|] eqn:Hds; simpl in Hsg; [|done].
  injection Hsg as <-.
  pose proof (elem_of_behavior_nodes g (passes_edges_in_nodes log_entries)
                n ds) as Hset.
  assert (Hreach_node : ∀ m, m = n ∨ tc (edge_rel g) n m →
                             is_Some (nodes g !! m)).
  { intros m [->|Hm]; [done|]. apply tc_rtc in Hm.
    apply rtc_inv_r in Hm as [<-|(w & _ & Hwm)]; [done|].
    by destruct (passes_edges_in_nodes log_entries w m Hwm). }
  assert (Hin : ∀ m, is_Some (nodes (subgraph g ({[n]} ∪ ds)) !! m)
                     ↔ m = n ∨ tc (edge_rel g) n m).
  { intros m. rewrite <- (Hset m Hds). split.
    - intros [t Ht]. by apply subgraph_nodes_lookup in Ht as [_ ?].
    - intros Hm. destruct (Hreach_node m) as [t Ht]; [by apply Hset|].
      exists t. by apply subgraph_nodes_lookup. }
  split; [|split; [done|split; [done|split; [|split]]]].
  - intros m. rewrite (extract_lookup _ _ _ m Hsubs).
    destruct (decide (m ∈ file_nodes (passes log_entries))) as [Hm|Hm].
    + split; [done|]. intros _. unfold behavior, descendants.
      rewrite decide_True by by apply (file_nodes_are_nodes _ Hst). done.
    + split; [by intros [? ?]|done].
  - intros m t Ht. by apply subgraph_nodes_lookup in Ht as [? _].
  - intros u v l. rewrite subgraph_edges_lookup, !Hin, <- !(Hset _ Hds). done.
  - intros Hout.
    assert (Honly : ∀ m, m = n ∨ tc (edge_rel g) n m → m = n).
    { intros m [->|Hm]; [done|].
      destruct (tc_first_edge _ _ _ Hm) as (w & x & Hw).
      by rewrite Hout in Hw. }
    split.
    + apply set_eq. intros m. rewrite elem_of_dom, Hin, elem_of_singleton.
      split; [apply Honly|by left].
    + apply map_eq. intros [u v]. rewrite lookup_empty.
      destruct (edges _ !! (u, v)) as [l|] eqn:E; [|done].
      apply subgraph_edges_lookup in E as (E & Hu & _).
      apply (Hset _ Hds), Honly in Hu. subst u. by rewrite Hout in E.
Qed.

Lemma behavior_subgraph_witness :
  ∃ g subs sg,
    build_from_entries [passwd_record; bash_record; read_record]
      = Some (g, subs) ∧
    g = main_graph (passes [passwd_record; bash_record; read_record]) ∧
    (∀ m, is_Some (subs !! m) ↔
          m ∈ file_nodes (passes [passwd_record; bash_record; read_record])) ∧
    subs !! KStr "/etc/passwd" = Some sg ∧
    (∀ m, is_Some (nodes sg !! m) ↔
          m = KStr "/etc/passwd" ∨ tc (edge_rel g) (KStr "/etc/passwd") m) ∧
    (∀ m t, nodes sg !! m = Some t → nodes g !! m = Some t) ∧
    (∀ u v l, edges sg !! (u, v) = Some l ↔
              edges g !! (u, v) = Some l ∧
              is_Some (nodes sg !! u) ∧ is_Some (nodes sg !! v)) ∧
    ((∀ v, edges g !! (KStr "/etc/passwd", v) = None) →
     dom (nodes sg) = {[KStr "/etc/passwd"]} ∧ edges sg = ∅).
Proof.
  apply (behavior_subgraph [passwd_record; bash_record; read_record]
           (KStr "/etc/passwd")).
  left. vm_compute. reflexivity.
Defined.

(** ** The subgraphs in the result *)

Lemma build_result log_entries g subs :
  build_from_entries log_entries = Some (g, subs) →
  g = main_graph (passes log_entries) ∧
  ∀ n, subs !! n = if decide (n ∈ file_nodes (passes log_entries))
                   then behavior g n else None.
Proof.
  unfold build_from_entries.
  destruct (extract _ _) as [subs'|] eqn:E; simpl; [|done].
  intros [= <- <-]. split; [done|]. intros n. by apply extract_lookup.
Qed.

Lemma behavior_lookup g n sg :
  (∀ u v, edge_rel g u v →
          is_Some (nodes g !! u) ∧ is_Some (nodes g !! v)) →
  behavior g n = Some sg →
  (∀ m t, nodes sg !! m = Some t ↔
          nodes g !! m = Some t ∧ (m = n ∨ tc (edge_rel g) n m)) ∧
  (∀ u v l, edges sg !! (u, v) = Some l ↔
            edges g !! (u, v) = Some l ∧
            (u = n ∨ tc (edge_rel g) n u) ∧ (v = n ∨ tc (edge_rel g) n v)).
Proof.
  intros Hwf. unfold behavior.
  destruct (descendants g n) as [ds|] eqn:Hds; simpl; [|done].
  intros [= <-].
  pose proof (elem_of_behavior_nodes g Hwf n ds) as Hset.
  split.
  - intros m t. by rewrite subgraph_nodes_lookup, (Hset m Hds).
  - intros u v l. by rewrite subgraph_edges_lookup, !(Hset _ Hds).
Qed.

Lemma subgraph_of_build log_entries g subs n sg :
  build_from_entries log_entries = Some (g, subs) →
  subs !! n = Some sg →
  n ∈ file_nodes (passes log_entries) ∧
  (∀ u v, edge_rel g u v →
          is_Some (nodes g !! u) ∧ is_Some (nodes g !! v)) ∧
  (∀ m t, nodes sg !! m = Some t ↔
          nodes g !! m = Some t ∧ (m = n ∨ tc (edge_rel g) n m)) ∧
  (∀ u v l, edges sg !! (u, v) = Some l ↔
            edges g !! (u, v) = Some l ∧
            (u = n ∨ tc (edge_rel g) n u) ∧ (v = n ∨ tc (edge_rel g) n v)).
Proof.
  intros [-> Hsubs]%build_result Hn. rewrite Hsubs in Hn.
  case_decide as Hfile; [|done]. split; [done|].
  pose proof (passes_edges_in_nodes log_entries) as Hwf.
  split; [done|]. by apply behavior_lookup.
Qed.

(** ** A name declared as a file and as something else *)





(** ** Strings: stripping, splitting and joining *)

Lemma endswith_last_char c s :
  endswith c s = true → last_char s = Some c.
Proof.
  induction s as [|a s IH]; simpl; [done|].
  destruct s as [|b s]; [|done].
  by intros ->%Ascii.eqb_eq.
Qed.

Lemma last_char_endswith c s :
  last_char s = Some c → ∀ d, endswith d s = Ascii.eqb c d.
Proof.
  induction s as [|a s IH]; simpl; [done|].
  destruct s as [|b s]; [|done]. by intros [= ->].
Qed.

Lemma rstrip_keep drop s c :
  last_char s = Some c → drop c = false → rstrip drop s = s.
Proof.
  intros Hlast Hc. induction s as [|a s IH]; [done|].
  destruct s as [|b s].
  - simpl in *. injection Hlast as ->. by rewrite Hc.
  - change (rstrip drop (String a (String b s)))
      with (match rstrip drop (String b s) with
            | EmptyString => if drop a then EmptyString else String a EmptyString
            | r => String a r
            end).
    by rewrite IH.
Qed.

Lemma rstrip_all_dropped drop s :
  lstrip drop s = EmptyString → rstrip drop s = EmptyString.
Proof.
  induction s as [|a s IH]; simpl; [done|].
  destruct (drop a) eqn:Ha; [|done]. intros H. by rewrite (IH H).
Qed.

Lemma rstrip_lstrip drop s :
  rstrip drop s = s → rstrip drop (lstrip drop s) = lstrip drop s.
Proof.
  induction s as [|a s IH]; simpl; [done|].
  destruct (drop a) eqn:Ha; [|simpl; by rewrite Ha].
  destruct (rstrip drop s) as [|b r] eqn:E; [done|].
  intros [= H]. apply IH. congruence.
Qed.

Lemma rstrip_only_commas k : rstrip (Ascii.eqb ",") (commas k) = EmptyString.
Proof. induction k as [|k IH]; simpl; [done|]. by rewrite IH. Qed.

Lemma rstrip_app_commas s k :
  rstrip_commas (s +:+ commas k) = rstrip_commas s.
Proof.
  unfold rstrip_commas. induction s as [|a s IH]; simpl.
  - apply rstrip_only_commas.
  - by rewrite IH.
Qed.

Lemma lstrip_app drop s t :
  lstrip drop s ≠ EmptyString → lstrip drop (s +:+ t) = lstrip drop s +:+ t.
Proof.
  induction s as [|a s IH]; simpl; [done|].
  by destruct (drop a).
Qed.

Lemma last_char_app_commas s k :
  last_char (s +:+ commas (S k)) = Some ","%char.
Proof.
  induction s as [|a s IH].
  - simpl. induction k as [|k IHk]; [done|]. exact IHk.
  - change (last_char (String a (s +:+ commas (S k))) = Some ","%char).
    destruct (s +:+ commas (S k)) eqn:E; [|exact IH].
    by destruct s.
Qed.

Lemma append_empty_r s : s +:+ EmptyString = s.
Proof. induction s as [|a s IH]; simpl; [done|]. by rewrite IH. Qed.

Lemma clean_object_line line :
  is_object_line line = true →
  strip line = line ∧ clean_line line = line ∧ is_empty line = false.
Proof.
  unfold is_object_line. intros [[Hfirst Hlast]%andb_prop _]%andb_prop.
  destruct line as [|a line]; [done|]. simpl in Hfirst.
  apply Ascii.eqb_eq in Hfirst. subst a.
  apply endswith_last_char in Hlast.
  assert (Hstrip : strip (String "{" line) = String "{" line).
  { unfold strip. simpl lstrip. by apply (rstrip_keep _ _ "}"). }
  split; [done|]. split; [|done].
  unfold clean_line. rewrite Hstrip. unfold rstrip_commas.
  rewrite (rstrip_keep _ _ "}") by done. rewrite Hstrip.
  simpl startswith. cbv iota.
  by rewrite (last_char_endswith _ _ Hlast).
Qed.

Lemma split_lines_single line :
  has_newline line = false → split_lines line = [line].
Proof.
  induction line as [|a line IH]; simpl; [done|].
  intros [Ha Hline]%orb_false_elim. by rewrite Ha, IH.
Qed.

Lemma split_lines_cons line rest :
  has_newline line = false →
  split_lines (line +:+ String newline rest) = line :: split_lines rest.
Proof.
  induction line as [|a line IH]; simpl; [done|].
  intros [Ha Hline]%orb_false_elim. by rewrite Ha, IH.
Qed.

Lemma split_join_lines lines :
  lines ≠ [] →
  Forall (fun line => has_newline line = false) lines →
  split_lines (join_lines lines) = lines.
Proof.
  intros Hne Hall. induction Hall as [|line lines Hline Hall IH]; [done|].
  destruct lines as [|line' lines].
  - simpl. by apply split_lines_single.
  - change (join_lines (line :: line' :: lines))
      with (line +:+ String newline (join_lines (line' :: lines))).
    rewrite split_lines_cons by done. by rewrite IH.
Qed.

(** ** The loop over the lines *)

Lemma line_step_parse loads acc line :
  line_step loads acc line
  = match parse_line loads line with
    | Returns (Some entry) => Returns (acc ++ [entry])
    | Returns None => Returns acc
    | Raises e => Raises e
    | Unmodelled => Unmodelled
    end.
Proof.
  unfold line_step, parse_line, handled.
  destruct (is_empty (strip line)); [done|].
  destruct (is_empty (clean_line line)); [done|].
  by destruct (loads (clean_line line)) as [entry|[]|].
Qed.

Lemma returns_entry loads line :
  returns (parse_line loads line) = true →
  parse_line loads line = Returns (line_entry loads line).
Proof.
  unfold line_entry. by destruct (parse_line loads line).
Qed.

Lemma lines_loop_returns loads lines acc :
  Forall (fun line => returns (parse_line loads line) = true) lines →
  lines_loop loads lines acc
  = Returns (acc ++ omap (line_entry loads) lines).
Proof.
  intros Hall. revert acc.
  induction Hall as [|line lines Hline _ IH]; intros acc.
  - simpl. by rewrite app_nil_r.
  - change (lines_loop loads (line :: lines) acc)
      with (line_step loads acc line ≫= lines_loop loads lines).
    rewrite line_step_parse, (returns_entry _ _ Hline).
    change (omap (line_entry loads) (line :: lines))
      with (match line_entry loads line with
            | Some y => y :: omap (line_entry loads) lines
            | None => omap (line_entry loads) lines
            end).
    destruct (line_entry loads line) as [entry|].
    + change (lines_loop loads lines (acc ++ [entry])
              = Returns (acc ++ entry :: omap (line_entry loads) lines)).
      rewrite IH. by rewrite <- app_assoc.
    + apply IH.
Qed.


Lemma decode_lines_entries loads content :
  Forall (fun line => returns (parse_line loads line) = true)
    (split_lines content) →
  decode_lines loads content
  = Returns (omap (line_entry loads) (split_lines content)).
Proof. intros Hall. unfold decode_lines. by rewrite lines_loop_returns. Qed.

(** ** The decoder on lines that hold records *)

Lemma record_line_object loads line :
  record_line loads line = true →
  is_object_line line = true ∧ ∃ kvs, loads line = Returns (PDict kvs).
Proof.
  unfold record_line. intros [Hobj Hload]%andb_prop. split; [done|].
  destruct (loads line) as [[]| |]; try done. by eexists.
Qed.

Lemma object_line_no_newline line :
  is_object_line line = true → has_newline line = false.
Proof.
  unfold is_object_line. intros [_ H]%andb_prop. by apply negb_true_iff in H.
Qed.

Lemma parse_object_line loads line :
  is_object_line line = true →
  parse_line loads line = handled (loads line).
Proof.
  intros (Hstrip & Hclean & Hne)%clean_object_line.
  unfold parse_line. by rewrite Hstrip, Hclean, Hne.
Qed.

Lemma record_line_parse loads line :
  record_line loads line = true →
  ∃ kvs, loads line = Returns (PDict kvs) ∧
         parse_line loads line = Returns (Some (PDict kvs)) ∧
         line_entry loads line = Some (PDict kvs).
Proof.
  intros [Hobj [kvs Hload]]%record_line_object. exists kvs.
  assert (parse_line loads line = Returns (Some (PDict kvs))) as Hparse.
  { by rewrite parse_object_line, Hload. }
  unfold line_entry. by rewrite Hparse.
Qed.

Lemma record_lines_return loads lines :
  Forall (fun line => record_line loads line = true) lines →
  Forall (fun line => returns (parse_line loads line) = true) lines.
Proof.
  intros Hall. eapply Forall_impl; [exact Hall|]. simpl.
  intros line (kvs & _ & Hparse & _)%record_line_parse.
  by rewrite Hparse.
Qed.

Lemma record_lines_no_newline loads lines :
  Forall (fun line => record_line loads line = true) lines →
  Forall (fun line => has_newline line = false) lines.
Proof.
  intros Hall. eapply Forall_impl; [exact Hall|]. simpl. intros line Hline.
  by apply object_line_no_newline, record_line_object with loads.
Qed.

Lemma decode_record_lines loads lines :
  Forall (fun line => record_line loads line = true) lines →
  loads EmptyString = Raises JSONDecodeError →
  ((2 ≤ length lines)%nat →
   loads (join_lines lines) = Raises JSONDecodeError) →
  decode loads (join_lines lines)
  = Returns (omap (line_entry loads) lines).
Proof.
  intros Hrec Hempty Hmany. destruct lines as [|line [|line' lines]].
  - unfold decode. simpl. by rewrite Hempty.
  - apply Forall_inv in Hrec.
    apply record_line_parse in Hrec as (kvs & Hload & _ & Hentry).
    unfold decode. simpl. by rewrite Hload, Hentry.
  - unfold decode. rewrite Hmany by (simpl; lia).
    rewrite decode_lines_entries; rewrite split_join_lines; try done.
    + by apply record_lines_no_newline with loads.
    + by apply record_lines_return.
    + by apply record_lines_no_newline with loads.
Qed.

Lemma entries_record_lines loads lines records :
  Forall2 (fun line r => record_line loads line = true ∧
                         loads line = Returns r) lines records →
  omap (line_entry loads) lines = records.
Proof.
  induction 1 as [|line r lines records [Hrec Hload] _ IH]; [done|].
  apply record_line_parse in Hrec as (kvs & Hload' & _ & Hentry).
  change (omap (line_entry loads) (line :: lines))
    with (match line_entry loads line with
          | Some y => y :: omap (line_entry loads) lines
          | None => omap (line_entry loads) lines
          end).
  rewrite Hentry, IH. congruence.
Qed.

Lemma entries_of_kept loads lines :
  omap (line_entry loads) (List.filter (gives_record loads) lines)
  = omap (line_entry loads) lines.
Proof.
  induction lines as [|line lines IH]; [done|].
  change (omap (line_entry loads) (line :: lines))
    with (match line_entry loads line with
          | Some y => y :: omap (line_entry loads) lines
          | None => omap (line_entry loads) lines
          end).
  simpl List.filter. unfold gives_record at 1.
  destruct (line_entry loads line) as [entry|] eqn:E; [|exact IH].
  change (omap (line_entry loads)
            (line :: List.filter (gives_record loads) lines))
    with (match line_entry loads line with
          | Some y => y :: omap (line_entry loads)
                             (List.filter (gives_record loads) lines)
          | None => omap (line_entry loads)
                      (List.filter (gives_record loads) lines)
          end).
  by rewrite E, IH.
Qed.

Lemma gives_record_returns loads line :
  gives_record loads line = true → returns (parse_line loads line) = true.
Proof.
  unfold gives_record, line_entry. by destruct (parse_line loads line).
Qed.

Lemma gives_nothing_returns loads line :
  gives_nothing loads line → parse_line loads line = Returns None.
Proof.
  unfold gives_nothing, parse_line. intros [->|[H|H]]; [done| |].
  - destruct (is_empty (strip line)); [done|]. by rewrite H.
  - destruct (is_empty (strip line)); [done|].
    destruct (is_empty (clean_line line)); [done|]. by rewrite H.
Qed.

(** ** What the cleaning of a line removes *)

Lemma append_assoc (s t u : string) : (s +:+ t) +:+ u = s +:+ t +:+ u.
Proof. induction s as [|a s IH]; simpl; [done|]. by rewrite IH. Qed.

Lemma lstrip_app_all drop s t :
  lstrip drop s = EmptyString → lstrip drop (s +:+ t) = lstrip drop t.
Proof.
  induction s as [|c s IH]; simpl; [done|].
  by destruct (drop c).
Qed.

Lemma rstrip_app_all drop s t :
  lstrip drop t = EmptyString → rstrip drop (s +:+ t) = rstrip drop s.
Proof.
  intros Ht. induction s as [|a s IH].
  - simpl. by apply rstrip_all_dropped.
  - change (rstrip drop (String a (s +:+ t)) = rstrip drop (String a s)).
    simpl. by rewrite IH.
Qed.

Lemma lstrip_head drop s a x :
  lstrip drop s = String a x → drop a = false.
Proof.
  induction s as [|b s IH]; simpl; [done|].
  destruct (drop b) eqn:Hb; [done|]. by intros [= <- _].
Qed.

Lemma rstrip_head drop a x :
  drop a = false → rstrip drop (String a x) ≠ EmptyString.
Proof.
  intros Ha. simpl. destruct (rstrip drop x); [by rewrite Ha|done].
Qed.

Lemma blank_all_space s :
  strip s = EmptyString → lstrip py_isspace s = EmptyString.
Proof.
  unfold strip. destruct (lstrip py_isspace s) as [|a x] eqn:E; [done|].
  intros H. by destruct (rstrip_head py_isspace a x (lstrip_head _ _ _ _ E)).
Qed.

Lemma all_space_app s t :
  lstrip py_isspace s = EmptyString → lstrip py_isspace t = EmptyString →
  lstrip py_isspace (s +:+ t) = EmptyString.
Proof. intros Hs Ht. by rewrite lstrip_app_all. Qed.

Lemma all_space_last s d :
  lstrip py_isspace s = EmptyString → last_char s = Some d →
  py_isspace d = true.
Proof.
  induction s as [|a s IH]; simpl; [done|].
  destruct (py_isspace a) eqn:Ha; [|done].
  destruct s as [|b s]; [by intros _ [= <-]|]. exact IH.
Qed.

Lemma last_char_app s t :
  t ≠ EmptyString → last_char (s +:+ t) = last_char t.
Proof.
  intros Ht. induction s as [|a s IH]; [done|].
  change (last_char (String a (s +:+ t)) = last_char t).
  destruct (s +:+ t) eqn:E; [|exact IH].
  destruct s; [by simpl in E|done].
Qed.

Lemma last_char_none s : last_char s = None → s = EmptyString.
Proof.
  induction s as [|a s IH]; [done|]. simpl.
  destruct s as [|b s]; [done|]. intros H. by specialize (IH H).
Qed.

Lemma last_char_snoc s c : last_char (s +:+ String c EmptyString) = Some c.
Proof. by rewrite last_char_app. Qed.

Lemma drop_last_snoc s c : drop_last (s +:+ String c EmptyString) = s.
Proof.
  induction s as [|a s IH]; [done|]. destruct s as [|b s]; [done|].
  change (String a (drop_last (String b s +:+ String c EmptyString))
          = String a (String b s)).
  by rewrite IH.
Qed.

Lemma lstrip_started a s :
  startswith a s = true → py_isspace a = false → lstrip py_isspace s = s.
Proof.
  destruct s as [|b s]; [done|]. simpl. intros ->%Ascii.eqb_eq Ha.
  by rewrite Ha.
Qed.

(** What the three calls of line 35 leave of a text that stands between
    white space and before white space and commas. *)
Lemma tidy_body pad_l body mid k pad_r a c :
  strip pad_l = EmptyString → strip mid = EmptyString →
  strip pad_r = EmptyString →
  startswith a body = true → py_isspace a = false →
  last_char body = Some c → py_isspace c = false →
  Ascii.eqb c "," = false →
  is_empty (strip (pad_l +:+ body +:+ mid +:+ commas k +:+ pad_r)) = false ∧
  strip (rstrip_commas (strip (pad_l +:+ body +:+ mid +:+ commas k +:+ pad_r)))
  = body.
Proof.
  intros Hl%blank_all_space Hm%blank_all_space Hr%blank_all_space
    Ha Hna Hc Hnc Hcomma.
  assert (Hbody : lstrip py_isspace body = body) by by eapply lstrip_started.
  assert (Hne : body ≠ EmptyString) by by destruct body.
  assert (Hfirst : ∀ t, lstrip py_isspace (pad_l +:+ body +:+ t)
                        = body +:+ t).
  { intros t. rewrite lstrip_app_all by done.
    rewrite lstrip_app by by rewrite Hbody. by rewrite Hbody. }
  assert (Hkeep : rstrip py_isspace body = body)
    by by apply (rstrip_keep _ _ c).
  assert (Hstrip_mid : strip (body +:+ mid) = body).
  { unfold strip. rewrite lstrip_app by by rewrite Hbody. rewrite Hbody.
    by rewrite rstrip_app_all. }
  assert (Hs : strip (pad_l +:+ body +:+ mid +:+ commas k +:+ pad_r)
               = body +:+ match k with
                          | O => EmptyString
                          | S _ => mid +:+ commas k
                          end).
  { unfold strip. rewrite Hfirst. destruct k as [|k].
    - cbn [commas]. change (EmptyString +:+ pad_r) with pad_r.
      rewrite rstrip_app_all by by apply all_space_app.
      by rewrite Hkeep, append_empty_r.
    - rewrite <- (append_assoc mid), <- (append_assoc body).
      rewrite rstrip_app_all by done.
      apply (rstrip_keep _ _ ","); [|done].
      rewrite <- append_assoc. apply last_char_app_commas. }
  rewrite Hs. split; [by destruct body|].
  destruct k as [|k].
  - rewrite append_empty_r. unfold rstrip_commas.
    rewrite (rstrip_keep _ _ c) by done.
    unfold strip. by rewrite Hbody.
  - rewrite <- append_assoc, rstrip_app_commas. unfold rstrip_commas.
    destruct mid as [|b mid'] eqn:Emid.
    + rewrite append_empty_r. rewrite (rstrip_keep _ _ c) by done.
      unfold strip. by rewrite Hbody.
    + rewrite <- Emid in *.
      assert (∃ d, last_char mid = Some d) as [d Hd].
      { rewrite Emid. clear. revert b. induction mid' as [|b' m IH];
          intros b; [by eexists|]. apply (IH b'). }
      rewrite (rstrip_keep _ (body +:+ mid) d).
      * exact Hstrip_mid.
      * rewrite last_char_app by by rewrite Emid. done.
      * pose proof (all_space_last _ _ Hm Hd) as Hsp.
        destruct (Ascii.eqb d ",") eqn:E; [|done].
        apply Ascii.eqb_eq in E. by subst d.
Qed.

Lemma tidy_blank pad_l mid k pad_r :
  strip pad_l = EmptyString → strip mid = EmptyString →
  strip pad_r = EmptyString →
  strip (rstrip_commas (strip (pad_l +:+ mid +:+ commas k +:+ pad_r)))
  = EmptyString.
Proof.
  intros Hl%blank_all_space Hm%blank_all_space Hr%blank_all_space.
  unfold strip at 2. rewrite !lstrip_app_all by done.
  destruct k as [|k].
  - cbn [commas]. change (EmptyString +:+ pad_r) with pad_r.
    rewrite Hr. done.
  - change (lstrip py_isspace (commas (S k) +:+ pad_r))
      with (commas (S k) +:+ pad_r).
    rewrite rstrip_app_all by done.
    rewrite (rstrip_keep py_isspace (commas (S k)) ",");
      [|apply (last_char_app_commas EmptyString k)|done].
    unfold rstrip_commas. by rewrite rstrip_only_commas.
Qed.

(** Lines 35 to 39 on a dressed text. *)
Lemma clean_line_dressed pad_l opening core closing mid k pad_r :
  strip pad_l = EmptyString → strip mid = EmptyString →
  strip pad_r = EmptyString →
  (opening = false → starts_clean core = true) →
  (closing = false → ends_clean core = true) →
  clean_line (dressed pad_l opening core closing mid k pad_r) = core ∧
  (is_empty core = false →
   is_empty (strip (dressed pad_l opening core closing mid k pad_r))
   = false).
Proof.
  intros Hl Hm Hr Hopen Hclose.
  set (body := (if opening then "[" else EmptyString) +:+ core
               +:+ (if closing then "]" else EmptyString)).
  assert (Hd : dressed pad_l opening core closing mid k pad_r
               = pad_l +:+ body +:+ mid +:+ commas k +:+ pad_r).
  { unfold dressed, body. by rewrite !append_assoc. }
  assert (Hbrackets :
    (let line := body in
     let line := if startswith "[" line then drop_first line else line in
     if endswith "]" line then drop_last line else line) = core).
  { unfold body. cbv zeta.
    assert (Hend : (if endswith "]"
                         (core +:+ (if closing then "]" else EmptyString))
                    then drop_last
                           (core +:+ (if closing then "]" else EmptyString))
                    else core +:+ (if closing then "]" else EmptyString))
                   = core).
    { destruct closing.
      - rewrite (last_char_endswith _ _ (last_char_snoc core "]")).
        simpl Ascii.eqb. cbv iota. apply drop_last_snoc.
      - rewrite append_empty_r. specialize (Hclose eq_refl).
        unfold ends_clean in Hclose.
        destruct (last_char core) as [c|] eqn:Hc.
        + rewrite (last_char_endswith _ _ Hc).
          apply andb_prop in Hclose as [_ H]. apply negb_true_iff in H.
          by rewrite H.
        + by rewrite (last_char_none _ Hc). }
    destruct opening.
    - change (startswith "["
                ("[" +:+ core +:+ (if closing then "]" else EmptyString)))
        with true. cbv iota. exact Hend.
    - change (EmptyString +:+ core +:+ (if closing then "]" else EmptyString))
        with (core +:+ (if closing then "]" else EmptyString)).
      assert (startswith "["
                (core +:+ (if closing then "]" else EmptyString)) = false)
        as ->; [|exact Hend].
      specialize (Hopen eq_refl). destruct core as [|a core].
      + by destruct closing.
      + simpl in *. apply andb_prop in Hopen as [_ H].
        by apply negb_true_iff in H. }
  rewrite Hd. destruct (is_empty body) eqn:Hbody.
  - assert (body = EmptyString) as Hb by by destruct body.
    assert (core = EmptyString) as ->.
    { unfold body in Hb. destruct opening; [done|].
      destruct core; [done|done]. }
    split; [|done]. rewrite Hb.
    change (EmptyString +:+ mid +:+ commas k +:+ pad_r)
      with (mid +:+ commas k +:+ pad_r).
    unfold clean_line. by rewrite tidy_blank.
  - assert (∃ a, startswith a body = true ∧ py_isspace a = false)
      as (a & Ha & Hna).
    { unfold body. destruct opening; [by exists "["%char|].
      change (EmptyString +:+ core +:+ (if closing then "]" else EmptyString))
        with (core +:+ (if closing then "]" else EmptyString)).
      specialize (Hopen eq_refl). destruct core as [|a core].
      - destruct closing; [by exists "]"%char|].
        unfold body in Hbody. done.
      - exists a. simpl in *. rewrite Ascii.eqb_refl. split; [done|].
        apply andb_prop in Hopen as [H _]. by apply negb_true_iff in H. }
    assert (∃ c, last_char body = Some c ∧ py_isspace c = false ∧
                 Ascii.eqb c "," = false) as (c & Hc & Hnc & Hcomma).
    { unfold body. destruct closing.
      - exists "]"%char. rewrite <- append_assoc.
        by rewrite last_char_snoc.
      - rewrite append_empty_r. specialize (Hclose eq_refl).
        unfold ends_clean in Hclose.
        destruct (last_char core) as [c|] eqn:Hlc.
        + exists c. apply andb_prop in Hclose as [[H1 H2]%andb_prop _].
          apply negb_true_iff in H1, H2. split; [|done].
          destruct core as [|x core]; [done|].
          by rewrite last_char_app.
        + pose proof (last_char_none _ Hlc) as Hcore. rewrite Hcore.
          destruct opening; [by exists "["%char|].
          unfold body in Hbody. by rewrite Hcore in Hbody. }
    destruct (tidy_body pad_l body mid k pad_r a c) as [Hne Htidy];
      try done.
    split; [|done]. unfold clean_line. rewrite Htidy. exact Hbrackets.
Qed.

(** ** Recovery line by line *)

Lemma parse_line_dressed loads pad_l opening core closing mid k pad_r :
  strip pad_l = EmptyString → strip mid = EmptyString →
  strip pad_r = EmptyString →
  (opening = false → starts_clean core = true) →
  (closing = false → ends_clean core = true) →
  parse_line loads (dressed pad_l opening core closing mid k pad_r)
  = if is_empty core then Returns None else handled (loads core).
Proof.
  intros Hl Hm Hr Hopen Hclose.
  destruct (clean_line_dressed pad_l opening core closing mid k pad_r)
    as [Hclean Hne]; try done.
  unfold parse_line. rewrite Hclean.
  destruct (is_empty core).
  - by destruct (is_empty (strip _)).
  - by rewrite Hne.
Qed.




(** ** The JSON reader and the end of a line

    What the reader accepts it accepts again, with the same value, when
    a line break and more text follow; the text that follows is then
    what the reader has not read. *)

Lemma read_string_app t s : ∀ escaped str r,
  read_string escaped s = Returns (str, r) →
  read_string escaped (s +:+ t) = Returns (str, r +:+ t).
Proof.
  induction s as [|c s IH]; intros escaped str r; simpl; [done|].
  destruct escaped.
  - destruct (unescape c) as [x| |]; simpl; [|done|done].
    destruct (read_string false s) as [[str' rest]| |] eqn:E; simpl;
      [|done|done].
    intros [= <- <-]. by rewrite (IH _ _ _ E).
  - destruct (Ascii.eqb c dquote); [by intros [= <- <-]|].
    destruct (Ascii.eqb c backslash); [by apply IH|].
    destruct (nat_of_ascii c <? 32)%nat; [done|].
    destruct (read_string false s) as [[str' rest]| |] eqn:E; simpl;
      [|done|done].
    intros [= <- <-]. by rewrite (IH _ _ _ E).
Qed.

Lemma read_digits_app b s : ∀ acc n r,
  read_digits acc s = (n, r) →
  read_digits acc (s +:+ String newline b) = (n, r +:+ String newline b).
Proof.
  induction s as [|c s IH]; intros acc n r; simpl.
  - by intros [= <- <-].
  - destruct (digit c); [by apply IH|]. by intros [= <- <-].
Qed.

Lemma startswith_app_newline b c s :
  Ascii.eqb newline c = false →
  startswith c (s +:+ String newline b) = startswith c s.
Proof. intros Hc. by destruct s. Qed.

Lemma prefixb_app_newline b p : ∀ s,
  has_newline p = false →
  prefixb p (s +:+ String newline b) = prefixb p s.
Proof.
  induction p as [|a p IH]; intros s; simpl; [done|].
  intros [Ha Hp]%orb_false_elim. destruct s as [|c s]; simpl.
  - by rewrite Ha.
  - by rewrite IH.
Qed.

Lemma skip_chars_app t p : ∀ s,
  prefixb p s = true →
  skip_chars (String.length p) (s +:+ t)
  = skip_chars (String.length p) s +:+ t.
Proof.
  induction p as [|a p IH]; intros s; simpl; [done|].
  destruct s as [|c s]; [done|]. intros [_ Hp]%andb_prop. simpl.
  by apply IH.
Qed.

Lemma length_append s t :
  String.length (s +:+ t) = (String.length s + String.length t)%nat.
Proof. induction s as [|a s IH]; simpl; [done|]. by rewrite IH. Qed.

Lemma read_int_app b s n r :
  read_int s = Returns (n, r) →
  read_int (s +:+ String newline b) = Returns (n, r +:+ String newline b).
Proof.
  unfold read_int. rewrite startswith_app_newline by done.
  assert (Hdrop : ∀ s1 : string,
    match s1 with
    | EmptyString => Raises JSONDecodeError
    | String c r0 =>
        match digit c with
        | None => Raises JSONDecodeError
        | Some d =>
            let '(n0, rest) := if d =? 0 then (0, r0) else read_digits d r0 in
            if startswith "." rest || startswith "e" rest || startswith "E" rest
            then Unmodelled
            else if (max_str_digits
                     <? S (String.length r0) - String.length rest)%nat
            then Raises ValueError
            else Returns (if startswith "-" s then - n0 else n0, rest)
        end
    end = Returns (n, r) →
    match s1 +:+ String newline b with
    | EmptyString => Raises JSONDecodeError
    | String c r0 =>
        match digit c with
        | None => Raises JSONDecodeError
        | Some d =>
            let '(n0, rest) := if d =? 0 then (0, r0) else read_digits d r0 in
            if startswith "." rest || startswith "e" rest || startswith "E" rest
            then Unmodelled
            else if (max_str_digits
                     <? S (String.length r0) - String.length rest)%nat
            then Raises ValueError
            else Returns (if startswith "-" s then - n0 else n0, rest)
        end
    end = Returns (n, r +:+ String newline b)).
  { intros [|c r0]; simpl; [done|].
    destruct (digit c) as [d|]; [|done].
    destruct (d =? 0).
    - rewrite !startswith_app_newline by done.
      destruct (_ || _); [done|].
      replace (S (String.length (r0 +:+ String newline b))
               - String.length (r0 +:+ String newline b))%nat
        with (S (String.length r0) - String.length r0)%nat by lia.
      destruct (_ <? _)%nat; [done|]. by intros [= <- <-].
    - destruct (read_digits d r0) as [n0 rest] eqn:E.
      rewrite (read_digits_app _ _ _ _ _ E).
      rewrite !startswith_app_newline by done.
      destruct (_ || _); [done|].
      rewrite !length_append.
      replace (S (String.length r0 + String.length (String newline b))
               - (String.length rest + String.length (String newline b)))%nat
        with (S (String.length r0) - String.length rest)%nat by lia.
      destruct (_ <? _)%nat; [done|]. by intros [= <- <-]. }
  destruct (startswith "-" s) eqn:Hneg.
  - destruct s as [|c s]; [done|]. simpl. apply Hdrop.
  - apply Hdrop.
Qed.

Lemma read_literal_app b s v r :
  read_literal s = Returns (v, r) →
  read_literal (s +:+ String newline b) = Returns (v, r +:+ String newline b).
Proof.
  unfold read_literal. rewrite !prefixb_app_newline by done.
  destruct (prefixb "null" s) eqn:E1.
  { intros [= <- <-]. by rewrite (skip_chars_app _ "null"). }
  destruct (prefixb "true" s) eqn:E2.
  { intros [= <- <-]. by rewrite (skip_chars_app _ "true"). }
  destruct (prefixb "false" s) eqn:E3.
  { intros [= <- <-]. by rewrite (skip_chars_app _ "false"). }
  destruct (_ || _); [done|].
  destruct (read_int s) as [[n rest]| |] eqn:E; simpl; [|done|done].
  intros [= <- <-]. by rewrite (read_int_app _ _ _ _ E).
Qed.

Lemma skip_ws_app t s c rest :
  skip_ws s = String c rest → skip_ws (s +:+ t) = String c (rest +:+ t).
Proof.
  intros H. unfold skip_ws in *. rewrite lstrip_app by by rewrite H.
  by rewrite H.
Qed.

Lemma reader_extends b f : ∀ f', (f ≤ f')%nat →
  (∀ d s v r, read_value f d s = Returns (v, r) →
              read_value f' d (s +:+ String newline b)
              = Returns (v, r +:+ String newline b)) ∧
  (∀ d s acc v r, read_elements f d s acc = Returns (v, r) →
                  read_elements f' d (s +:+ String newline b) acc
                  = Returns (v, r +:+ String newline b)) ∧
  (∀ d s acc v r, read_members f d s acc = Returns (v, r) →
                  read_members f' d (s +:+ String newline b) acc
                  = Returns (v, r +:+ String newline b)).
Proof.
  induction f as [|f IH]; intros f' Hle; [done|].
  destruct f' as [|f']; [lia|].
  destruct (IH f' ltac:(lia)) as (IHv & IHe & IHm).
  split; [|split].
  - intros d [|c s] v r; simpl; [done|].
    destruct (Ascii.eqb c dquote).
    { destruct (read_string false s) as [[str rest]| |] eqn:E; simpl;
        [|done|done].
      intros [= <- <-]. by rewrite (read_string_app _ _ _ _ _ E). }
    destruct (Ascii.eqb c "{").
    { destruct d as [|d]; [done|].
      destruct (skip_ws s) as [|c' rest] eqn:E; [done|].
      rewrite (skip_ws_app _ _ _ _ E).
      destruct (Ascii.eqb c' "}"); [by intros [= <- <-]|].
      intros H. by apply (IHm d (String c' rest)). }
    destruct (Ascii.eqb c "[").
    { destruct d as [|d]; [done|].
      destruct (skip_ws s) as [|c' rest] eqn:E; [done|].
      rewrite (skip_ws_app _ _ _ _ E).
      destruct (Ascii.eqb c' "]"); [by intros [= <- <-]|].
      intros H. by apply (IHe d (String c' rest)). }
    intros H. by apply (read_literal_app b (String c s)).
  - intros d s acc v r. simpl.
    destruct (read_value f d s) as [[v1 r1]| |] eqn:E1; simpl; [|done|done].
    rewrite (IHv _ _ _ _ E1). simpl.
    destruct (skip_ws r1) as [|c rest] eqn:E2; [done|].
    rewrite (skip_ws_app _ _ _ _ E2).
    destruct (Ascii.eqb c "]"); [by intros [= <- <-]|].
    destruct (Ascii.eqb c ","); [|done].
    destruct (skip_ws rest) as [|c' rest'] eqn:E3.
    { intros H. exfalso. clear -H. destruct f; simpl in H; [done|].
      by destruct f. }
    rewrite (skip_ws_app _ _ _ _ E3). intros H.
    by apply (IHe d (String c' rest')).
  - intros d [|c s] acc v r; simpl; [done|].
    destruct (Ascii.eqb c dquote); [|done].
    destruct (read_string false s) as [[k r1]| |] eqn:E1; simpl; [|done|done].
    rewrite (read_string_app _ _ _ _ _ E1). simpl.
    destruct (skip_ws r1) as [|c1 r2] eqn:E2; [done|].
    rewrite (skip_ws_app _ _ _ _ E2).
    destruct (Ascii.eqb c1 ":"); [|done].
    destruct (skip_ws r2) as [|c2 r2'] eqn:E3.
    { intros H. exfalso. clear -H. by destruct f. }
    rewrite (skip_ws_app _ _ _ _ E3).
    destruct (read_value f d (String c2 r2')) as [[v1 r3]| |] eqn:E4; simpl;
      [|done|done].
    pose proof (IHv _ _ _ _ E4) as E4'. simpl in E4'. rewrite E4'. simpl.
    destruct (skip_ws r3) as [|c3 rest] eqn:E5; [done|].
    rewrite (skip_ws_app _ _ _ _ E5).
    destruct (Ascii.eqb c3 "}"); [by intros [= <- <-]|].
    destruct (Ascii.eqb c3 ","); [|done].
    destruct (skip_ws rest) as [|c' rest'] eqn:E6.
    { intros H. exfalso. clear -H. by destruct f. }
    rewrite (skip_ws_app _ _ _ _ E6). intros H.
    by apply (IHm d (String c' rest')).
Qed.

Lemma length_app_le s t : (String.length s ≤ String.length (s +:+ t))%nat.
Proof. induction s as [|c s IH]; simpl; lia. Qed.

Lemma json_loads_next_line a b v :
  json_loads a = Returns v →
  skip_ws b ≠ EmptyString →
  json_loads (a +:+ String newline b) = Raises JSONDecodeError.
Proof.
  unfold json_loads. intros Ha Hb.
  destruct (read_value _ _ (skip_ws a)) as [[v' r]| |] eqn:E; [|done|done].
  destruct (skip_ws a) as [|c rest] eqn:Hws.
  { exfalso. clear -E. by destruct (String.length a). }
  rewrite (skip_ws_app _ _ _ _ Hws).
  destruct (reader_extends b (2 * String.length a + 2)
              (2 * String.length (a +:+ String newline b) + 2)) as (Hv & _).
  { pose proof (length_app_le a (String newline b)). lia. }
  change (String c (rest +:+ String newline b))
    with (String c rest +:+ String newline b).
  rewrite (Hv _ _ _ _ E).
  destruct (is_empty (skip_ws r)) eqn:Hr; [|done].
  assert (skip_ws r = EmptyString) as Hr' by by destruct (skip_ws r).
  unfold skip_ws in *. rewrite (lstrip_app_all _ _ _ Hr').
  change (lstrip json_ws (String newline b)) with (lstrip json_ws b).
  by destruct (lstrip json_ws b).
Qed.

Lemma join_lines_starts_with_object line lines :
  is_object_line line = true →
  skip_ws (join_lines (line :: lines)) ≠ EmptyString.
Proof.
  unfold is_object_line. intros [[Hfirst _]%andb_prop _]%andb_prop.
  destruct line as [|c line]; [done|]. simpl in Hfirst.
  apply Ascii.eqb_eq in Hfirst. subst c. by destruct lines.
Qed.

(** The reader of the examples keeps the documents of a log apart. *)
Lemma json_loads_separates_documents : separates_documents json_loads.
Proof.
  split; [done|]. intros [|line [|line' lines]] Hlen Hall;
    [simpl in Hlen; lia|simpl in Hlen; lia|].
  apply Forall_cons in Hall as [H1 Hall].
  apply Forall_cons in Hall as [H2 _].
  apply record_line_object in H1 as [_ [kvs H1]].
  apply record_line_object in H2 as [H2 _].
  change (join_lines (line :: line' :: lines))
    with (line +:+ String newline (join_lines (line' :: lines))).
  eapply json_loads_next_line; [done|].
  by apply join_lines_starts_with_object.
Qed.

(** ** One array or one record on each line *)

(** C7: for records that are JSON objects, the text that holds them as
    one JSON array and the text that holds them one on each line are
    decoded to the same sequence of records, hence to the same multiset,
    by every reader that keeps the documents of a log apart. *)
Theorem framing_agrees
    (loads : string → outcome pyval) (array_text : string)
    (lines : list string) (records : list pyval) :
  separates_documents loads →
  loads array_text = Returns (PList records) →
  Forall2 (fun line r => record_line loads line = true ∧
                         loads line = Returns r) lines records →
  decode loads array_text = Returns records ∧
  decode loads (join_lines lines) = Returns records ∧
  ∃ entries entries',
    decode loads (join_lines lines) = Returns entries ∧
    decode loads array_text = Returns entries' ∧
    entries ≡ₚ entries'.
Proof.
  intros [Hempty Hmany] Harray Hlines.
  assert (Hrec : Forall (fun line => record_line loads line = true) lines).
  { clear -Hlines. induction Hlines as [|? ? ? ? [? _]]; by constructor. }
  assert (H1 : decode loads array_text = Returns records).
  { unfold decode. by rewrite Harray. }
  assert (H2 : decode loads (join_lines lines) = Returns records).
  { rewrite decode_record_lines; [|done|done|by intros ?; apply Hmany].
    by rewrite (entries_record_lines _ _ _ Hlines). }
  split; [done|]. split; [done|]. by exists records, records.
Qed.

Lemma framing_agrees_witness :
  decode json_loads scenario_array
  = Returns [passwd_record; bash_record; read_record] ∧
  decode json_loads (join_lines record_lines)
  = Returns [passwd_record; bash_record; read_record] ∧
  ∃ entries entries',
    decode json_loads (join_lines record_lines) = Returns entries ∧
    decode json_loads scenario_array = Returns entries' ∧
    entries ≡ₚ entries'.
Proof.
  apply (framing_agrees json_loads scenario_array record_lines
           [passwd_record; bash_record; read_record]).
  - exact json_loads_separates_documents.
  - vm_compute. reflexivity.
  - repeat constructor; vm_compute; reflexivity.
Defined.

(** ** Lines that are not records *)

Lemma decode_line_by_line loads lines :
  Forall (fun line => has_newline line = false) lines →
  Forall (fun line => returns (parse_line loads line) = true) lines →
  loads (join_lines lines) = Raises JSONDecodeError →
  decode loads (join_lines lines)
  = Returns (omap (line_entry loads) lines).
Proof.
  intros Hnl Hret Hwhole. unfold decode. rewrite Hwhole.
  destruct lines as [|line lines]; [done|].
  rewrite decode_lines_entries; by rewrite split_join_lines.
Qed.

(** C8, as the code has it: a log that is read line by line and whose
    lines either give a record or give nothing (a blank line, a line
    of which the cleaning leaves nothing, a line that [json.loads]
    rejects with [JSONDecodeError]) is decoded to the records of its
    lines, in their order; the run returns; and the same log without
    the lines that give nothing is decoded to the same records, and
    yields the same graph and the same subgraphs, when it holds one
    JSON object on each line, or is again read line by line, or is read
    by [json.loads] as the array of these records. *)
Theorem malformed_lines_change_nothing
    (loads : string → outcome pyval) (lines : list string) :
  separates_documents loads →
  Forall (fun line => has_newline line = false) lines →
  Forall (fun line => gives_record loads line = true ∨
                      gives_nothing loads line) lines →
  (List.filter (gives_record loads) lines ≠ lines →
   loads (join_lines lines) = Raises JSONDecodeError) →
  Forall (fun line => record_line loads line = true)
    (List.filter (gives_record loads) lines) ∨
  loads (join_lines (List.filter (gives_record loads) lines))
  = Raises JSONDecodeError ∨
  loads (join_lines (List.filter (gives_record loads) lines))
  = Returns (PList (omap (line_entry loads) lines)) →
  decode loads (join_lines lines)
  = Returns (omap (line_entry loads) lines) ∧
  decode loads (join_lines (List.filter (gives_record loads) lines))
  = decode loads (join_lines lines) ∧
  build_graph_and_subgraphs loads
    (join_lines (List.filter (gives_record loads) lines))
  = build_graph_and_subgraphs loads (join_lines lines) ∧
  returns (build_graph_and_subgraphs loads (join_lines lines)) = true.
Proof.
  intros [Hempty Hmany] Hnl Hlines Hbad Hkept.
  set (kept := List.filter (gives_record loads) lines) in *.
  assert (Hkept_in : ∀ l, l ∈ kept → l ∈ lines ∧ gives_record loads l = true).
  { intros l Hl. apply list_elem_of_In in Hl.
    apply List.filter_In in Hl as [Hl ?]. by apply list_elem_of_In in Hl. }
  assert (Hkept_nl : Forall (fun line => has_newline line = false) kept).
  { apply Forall_forall. intros l [Hl _]%Hkept_in.
    by apply (proj1 (Forall_forall _ _) Hnl). }
  assert (Hkept_ret :
    Forall (fun line => returns (parse_line loads line) = true) kept).
  { apply Forall_forall. intros l [_ Hl]%Hkept_in.
    by apply gives_record_returns. }
  assert (Hret :
    Forall (fun line => returns (parse_line loads line) = true) lines).
  { eapply Forall_impl; [exact Hlines|]. simpl. intros l [Hl|Hl].
    - by apply gives_record_returns.
    - by rewrite (gives_nothing_returns _ _ Hl). }
  assert (Hdec_kept :
    decode loads (join_lines kept) = Returns (omap (line_entry loads) lines)).
  { rewrite <- (entries_of_kept loads lines). fold kept.
    destruct Hkept as [Hrec|[Hwhole|Harray]].
    - apply decode_record_lines; [done|done|]. intros ?. by apply Hmany.
    - by apply decode_line_by_line.
    - unfold decode. rewrite Harray.
      by rewrite <- (entries_of_kept loads lines). }
  assert (Hdec : decode loads (join_lines lines)
                 = Returns (omap (line_entry loads) lines)).
  { destruct (decide (kept = lines)) as [Heq|Hne].
    - by rewrite <- Heq at 1.
    - apply decode_line_by_line; [done|done|by apply Hbad]. }
  split; [done|]. split; [by rewrite Hdec, Hdec_kept|].
  unfold build_graph_and_subgraphs. rewrite Hdec, Hdec_kept.
  split; [done|]. simpl.
  by destruct (build_total (omap (line_entry loads) lines)) as [result ->].
Qed.

Lemma malformed_lines_change_nothing_witness :
  decode json_loads (join_lines damaged_lines)
  = Returns (omap (line_entry json_loads) damaged_lines) ∧
  decode json_loads
    (join_lines (List.filter (gives_record json_loads) damaged_lines))
  = decode json_loads (join_lines damaged_lines) ∧
  build_graph_and_subgraphs json_loads
    (join_lines (List.filter (gives_record json_loads) damaged_lines))
  = build_graph_and_subgraphs json_loads (join_lines damaged_lines) ∧
  returns (build_graph_and_subgraphs json_loads (join_lines damaged_lines))
  = true.
Proof.
  apply (malformed_lines_change_nothing json_loads damaged_lines).
  - exact json_loads_separates_documents.
  - repeat constructor.
  - repeat (apply List.Forall_cons;
              [vm_compute; first [by left | by right; right; right]|]).
    apply List.Forall_nil.
  - intros _. vm_compute. reflexivity.
  - right. right. vm_compute. reflexivity.
Defined.

(** Three records written as an array on one line, followed by a line
    that is not JSON: the log is read line by line, the array line is
    cleaned of its brackets and rejected, and the graph is empty, while
    the array alone gives the graph of the scenario.  A cut record on
    which [json.loads] raises [ValueError] ends a run that returns
    without it.  And a record written on three lines, of which the
    second is a JSON object and the two others are not JSON texts, is
    read as a whole and declares a file, while the second line alone
    declares nothing. *)
Lemma malformed_line_alters_output :
  outcome_listing (build_graph_and_subgraphs json_loads scenario_array)
  = Returns
      (([(KStr "/etc/passwd", Some TFile); (KStr "bash", Some TProcess)],
        [((KStr "/etc/passwd", KStr "bash"), PStr "read")]),
       [(KStr "/etc/passwd",
         ([(KStr "/etc/passwd", Some TFile); (KStr "bash", Some TProcess)],
          [((KStr "/etc/passwd", KStr "bash"), PStr "read")]))]) ∧
  outcome_listing
    (build_graph_and_subgraphs json_loads
       (join_lines [scenario_array; noise_line]))
  = Returns (([], []), []) ∧
  build_graph_and_subgraphs json_loads
    (join_lines [passwd_line; long_number_line; bash_line])
  = Raises ValueError ∧
  returns (build_graph_and_subgraphs json_loads
             (join_lines [passwd_line; bash_line])) = true ∧
  List.filter (gives_record json_loads) spread_lines
  = [dq "{'path': '/etc/passwd'}"] ∧
  outcome_listing
    (build_graph_and_subgraphs json_loads (join_lines spread_lines))
  = Returns (([(KStr "/etc/passwd", Some TFile)], []),
             [(KStr "/etc/passwd", ([(KStr "/etc/passwd", Some TFile)], []))]) ∧
  outcome_listing
    (build_graph_and_subgraphs json_loads
       (join_lines (List.filter (gives_record json_loads) spread_lines)))
  = Returns (([], []), []).
Proof. vm_compute. done. Qed.


(** * Further properties of the construction *)

(** ** What the nodes and the edges of the final graph are *)

Lemma names_node_truthy entry t n :
  names_node entry = Some (t, n) →
  n ≠ KNone ∧ n ≠ KInt 0 ∧ n ≠ KStr EmptyString.
Proof.
  unfold names_node, node_effect.
  assert (Hnamed : ∀ t' name uuid,
    match named t' name uuid with
    | Declared t0 n0 _ | NodeOnly t0 n0 => Some (t0, n0)
    | Skipped => None
    end = Some (t, n) →
    n ≠ KNone ∧ n ≠ KInt 0 ∧ n ≠ KStr EmptyString).
  { intros t' name uuid. unfold named.
    destruct (truthy name) eqn:Htrue; [|done].
    destruct (hash_key name) as [n'|] eqn:Hhash; [|done].
    intros H. assert (n' = n) as ->.
    { destruct (uuid ≫= hash_key); by injection H. }
    clear H. destruct name as [| [] | z | s | |]; simpl in *;
      simplify_eq; repeat split; try done.
    - intros [= ->]. done.
    - intros [= ->]. done. }
  destruct (read_declaration entry) as [[fo fp|pu pn|no sa|]|]; try done.
  - apply Hnamed.
  - destruct (truthy pu); [apply Hnamed|done].
  - apply Hnamed.
Qed.

Lemma node_pass_nodes_iff es st n :
  is_Some (nodes (main_graph (node_pass es st)) !! n) ↔
  is_Some (nodes (main_graph st) !! n) ∨
  ∃ e t, e ∈ es ∧ names_node e = Some (t, n).
Proof.
  revert st. induction es as [|e es IH]; intros st; simpl.
  - split; [by left|]. intros [?|(e & t & He & _)]; [done|]. inversion He.
  - unfold node_pass in IH. rewrite IH. unfold names_node.
    rewrite node_step_effect. split.
    + intros [Hn|(e' & t & He' & Heff)].
      * destruct (node_effect e) as [t m u|t m|] eqn:E; simpl in Hn; auto.
        -- rewrite lookup_insert in Hn. case_decide; [subst m|by left].
           right. exists e, t. split; [left|by rewrite E].
        -- rewrite lookup_insert in Hn. case_decide; [subst m|by left].
           right. exists e, t. split; [left|by rewrite E].
      * right. exists e', t. split; [by right|done].
    + intros [Hn|(e' & t & He' & Heff)].
      * left. destruct (node_effect e) as [t m u|t m|]; simpl; try done;
          rewrite lookup_insert; by case_decide.
      * apply elem_of_cons in He' as [->|He'].
        -- left. destruct (node_effect e) as [t' m u|t' m|]; simplify_eq;
             simpl; by rewrite lookup_insert_eq.
        -- right. by exists e', t.
Qed.

(** X1: the nodes of the final graph are the names that the declarations of
    the log give, each with a type; no node has an empty name, and the
    events add no node. *)
Theorem nodes_are_declared_names (log_entries : list pyval) (n : key) :
  (is_Some (nodes (main_graph (passes log_entries)) !! n) ↔
   ∃ e t, e ∈ log_entries ∧ names_node e = Some (t, n)) ∧
  (is_Some (nodes (main_graph (passes log_entries)) !! n) →
   (∃ t, nodes (main_graph (passes log_entries)) !! n = Some (Some t)) ∧
   n ≠ KNone ∧ n ≠ KInt 0 ∧ n ≠ KStr EmptyString) ∧
  nodes (main_graph (passes log_entries))
  = nodes (main_graph (node_pass log_entries init_state)).
Proof.
  assert (Hiff : is_Some (nodes (main_graph (passes log_entries)) !! n) ↔
                 ∃ e t, e ∈ log_entries ∧ names_node e = Some (t, n)).
  { rewrite passes_nodes, node_pass_nodes_iff. simpl. rewrite lookup_empty.
    split; [|by right]. intros [[? ?]|?]; done. }
  split; [done|]. split; [|apply passes_nodes].
  intros Hn. split.
  - destruct Hn as [[t|] Hn]; [by exists t|].
    by destruct (all_nodes_tagged _ (consistent_passes log_entries) n).
  - apply Hiff in Hn as (e & t & _ & He). by eapply names_node_truthy.
Qed.

Lemma edge_effect_inv index names entry u v l :
  edge_effect index names entry = Some (u, v, l) →
  ∃ src tgt name1 name2,
    read_event entry = Some (Some (l, src, tgt)) ∧
    known index src = Some name1 ∧
    known index tgt = Some name2 ∧
    ((name2 ∈ names ∧ u = name2 ∧ v = name1) ∨
     ((name2 ∉ names) ∧ u = name1 ∧ v = name2)).
Proof.
  unfold edge_effect, known.
  destruct (read_event entry) as [[[[syscall src] tgt]|]|]; try done.
  destruct (hash_key src) as [ks|] eqn:Hs; simpl; [|done].
  destruct (index !! ks) as [name1|] eqn:H1; simpl; [|done].
  destruct (hash_key tgt) as [kt|] eqn:Ht; simpl; [|done].
  destruct (index !! kt) as [name2|] eqn:H2; simpl; [|done].
  case_decide; intros [= <- <- <-]; exists src, tgt, name1, name2;
    rewrite Hs, Ht; simpl; rewrite H1, H2; naive_solver.
Qed.

Lemma edge_pass_edges_from es st u v l :
  consistent st →
  edges (main_graph (edge_pass es st)) !! (u, v) = Some l →
  edges (main_graph st) !! (u, v) = Some l ∨
  ∃ e, e ∈ es ∧
       edge_effect (uuid2name st) (file_names st) e = Some (u, v, l).
Proof.
  intros Hst. induction es as [|e es IH] using rev_ind; [by left|].
  rewrite edge_pass_snoc, edge_step_effect by by apply consistent_edge_pass.
  rewrite edge_effect_stable by done.
  destruct (edge_effect _ _ e) as [[[a b] l']|] eqn:E; simpl.
  - rewrite lookup_insert. case_decide as Hab.
    + injection Hab as -> ->. intros [= ->]. right. exists e.
      split; [|done]. apply elem_of_app. right. left.
    + intros [?|(e' & He' & ?)]%IH; [by left|]. right. exists e'.
      split; [|done]. apply elem_of_app. by left.
  - intros [?|(e' & He' & ?)]%IH; [by left|]. right. exists e'.
    split; [|done]. apply elem_of_app. by left.
Qed.

Lemma elem_of_split {A} (x : A) (l : list A) :
  x ∈ l → ∃ l1 l2, l = l1 ++ x :: l2.
Proof. intros H. by apply list_elem_of_split. Qed.

(** X2: the edges of the final graph are the edges that the events of the
    log yield, and each carries the operation of one of the events that
    yield it: no edge is made up, and no event whose two identifiers are
    in the index is left without its edge. *)
Theorem edges_are_event_edges (log_entries : list pyval) (u v : key) :
  (∀ l, edges (main_graph (passes log_entries)) !! (u, v) = Some l →
        ∃ e src tgt name1 name2,
          e ∈ log_entries ∧
          read_event e = Some (Some (l, src, tgt)) ∧
          known (uuid2name (passes log_entries)) src = Some name1 ∧
          known (uuid2name (passes log_entries)) tgt = Some name2 ∧
          ((name2 ∈ file_names (passes log_entries) ∧
            u = name2 ∧ v = name1) ∨
           ((name2 ∉ file_names (passes log_entries)) ∧
            u = name1 ∧ v = name2))) ∧
  (∀ e l src tgt,
     e ∈ log_entries →
     read_event e = Some (Some (l, src, tgt)) →
     known (uuid2name (passes log_entries)) src = Some u →
     known (uuid2name (passes log_entries)) tgt = Some v →
     if decide (v ∈ file_names (passes log_entries))
     then is_Some (edges (main_graph (passes log_entries)) !! (v, u))
     else is_Some (edges (main_graph (passes log_entries)) !! (u, v))).
Proof.
  rewrite passes_uuid2name, passes_file_names.
  set (st1 := node_pass log_entries init_state).
  assert (Hst1 : consistent st1) by apply consistent_node_pass, consistent_init.
  split.
  - intros l Hl. unfold passes in Hl. fold st1 in Hl.
    apply edge_pass_edges_from in Hl; [|done].
    destruct Hl as [Hl|(e & He & Heff)].
    { unfold st1 in Hl. rewrite node_pass_edges in Hl. simpl in Hl.
      by rewrite lookup_empty in Hl. }
    apply edge_effect_inv in Heff as (src & tgt & n1 & n2 & ? & ? & ? & ?).
    by exists e, src, tgt, n1, n2.
  - intros e l src tgt He Hev Hu Hv.
    apply elem_of_split in He as (pre & post & ->).
    pose proof (edge_effect_known _ (file_names st1) _ _ _ _ _ _ Hev Hu Hv)
      as Heff.
    unfold passes. fold st1.
    case_decide; by eapply edge_in_final_graph.
Qed.

(** X3: no edge leads from a node that is not a file name to a file name:
    the events on a file, a write as well as a read, are edges from the
    file. *)
Theorem no_edge_into_file_from_other (log_entries : list pyval) (u v : key) :
  is_Some (edges (main_graph (passes log_entries)) !! (u, v)) →
  v ∈ file_names (passes log_entries) →
  u ∈ file_names (passes log_entries).
Proof.
  intros [l Hl] Hv. rewrite passes_file_names in *.
  set (st1 := node_pass log_entries init_state) in *.
  assert (Hst1 : consistent st1) by apply consistent_node_pass, consistent_init.
  unfold passes in Hl. fold st1 in Hl.
  apply edge_pass_edges_from in Hl; [|done].
  destruct Hl as [Hl|(e & He & Heff)].
  { unfold st1 in Hl. rewrite node_pass_edges in Hl. simpl in Hl.
    by rewrite lookup_empty in Hl. }
  apply edge_effect_inv in Heff
    as (src & tgt & n1 & n2 & _ & _ & _ & [(? & -> & ->)|(? & -> & ->)]);
    done.
Qed.

Lemma no_edge_into_file_from_other_witness :
  KStr "/etc/passwd"
    ∈ file_names (passes
        [passwd_record;
         event_record (PStr "rename") (PStr "F1") (PStr "F1")]).
Proof.
  apply (no_edge_into_file_from_other
           [passwd_record;
            event_record (PStr "rename") (PStr "F1") (PStr "F1")]
           (KStr "/etc/passwd") (KStr "/etc/passwd")).
  - vm_compute. eauto.
  - vm_compute. reflexivity.
Defined.

(** ** The index of the identifiers *)

Lemma node_pass_last_binding pre post entry st u n :
  binds entry = Some (u, n) →
  (∀ e n', e ∈ post → binds e ≠ Some (u, n')) →
  uuid2name (node_pass (pre ++ entry :: post) st) !! u = Some n.
Proof.
  intros Hentry Hpost. rewrite node_pass_app. simpl.
  set (st' := node_pass pre st). clearbody st'.
  assert (Hu : uuid2name (node_step st' entry) !! u = Some n).
  { rewrite node_step_effect. unfold binds in Hentry.
    destruct (node_effect entry); simplify_eq; simpl.
    by rewrite lookup_insert_eq. }
  revert Hu. generalize (node_step st' entry). clear st' Hentry.
  induction post as [|e post IH]; intros st' Hu; [done|].
  simpl. apply IH.
  - intros e' n' He'. apply Hpost. by right.
  - rewrite node_step_effect. pose proof (Hpost e) as He.
    unfold binds in He.
    destruct (node_effect e) as [t' m u'|t' m|]; simpl; try done.
    rewrite lookup_insert_ne; [done|]. intros ->. by eapply He; [left|].
Qed.

(** X4: an identifier that several records declare is bound to the name of
    the last of them: every event that refers to the identifier, before
    or after that record in the log, is an event of that name. *)
Theorem identifier_bound_to_last_declaration
    (pre post : list pyval) (entry : pyval) (u n : key) :
  binds entry = Some (u, n) →
  (∀ e n', e ∈ post → binds e ≠ Some (u, n')) →
  uuid2name (passes (pre ++ entry :: post)) !! u = Some n ∧
  (∀ v, hash_key v = Some u →
        known (uuid2name (passes (pre ++ entry :: post))) v = Some n).
Proof.
  intros Hentry Hpost.
  assert (Hu : uuid2name (passes (pre ++ entry :: post)) !! u = Some n).
  { rewrite passes_uuid2name. by apply node_pass_last_binding. }
  split; [done|]. intros v Hv. unfold known. by rewrite Hv.
Qed.

Lemma identifier_bound_to_last_declaration_witness :
  uuid2name (passes [read_record; bash_record;
                     process_record (PStr "P1") (PStr "zsh")])
    !! KStr "P1" = Some (KStr "zsh") ∧
  (∀ v, hash_key v = Some (KStr "P1") →
        known (uuid2name (passes [read_record; bash_record;
                                  process_record (PStr "P1") (PStr "zsh")])) v
        = Some (KStr "zsh")).
Proof.
  apply (identifier_bound_to_last_declaration
           [read_record; bash_record] []
           (process_record (PStr "P1") (PStr "zsh"))).
  - reflexivity.
  - intros e n' He. inversion He.
Defined.

(** ** The counters *)

Lemma size_insert_le {A} (m : gmap key A) i x :
  (size (<[i := x]> m) ≤ S (size m))%nat.
Proof. rewrite map_size_insert. destruct (m !! i); simpl; lia. Qed.

Lemma size_files_with_le t n (X : gset key) :
  (size (files_with t n X) ≤
   (if decide (t = TFile) then S (size X) else size X))%nat.
Proof.
  destruct t; simpl; try done.
  rewrite size_union_alt, size_singleton.
  pose proof (subseteq_size (X ∖ {[n]}) X). set_solver by lia.
Qed.

Lemma node_step_counts st e :
  count_f (node_step st e)
    = (count_f st + (if declared_as TFile e then 1 else 0))%nat ∧
  count_p (node_step st e)
    = (count_p st + (if declared_as TProcess e then 1 else 0))%nat ∧
  count_s (node_step st e)
    = (count_s st + (if declared_as TSocket e then 1 else 0))%nat ∧
  (size (file_names (node_step st e))
   ≤ size (file_names st) + (if declared_as TFile e then 1 else 0))%nat ∧
  (size (uuid2name (node_step st e))
   ≤ size (uuid2name st) + (if declared_as TFile e then 1 else 0)
     + (if declared_as TProcess e then 1 else 0)
     + (if declared_as TSocket e then 1 else 0))%nat ∧
  (size (nodes (main_graph (node_step st e)))
   ≤ size (nodes (main_graph st)) + 1)%nat.
Proof.
  rewrite node_step_effect. unfold declared_as.
  destruct (node_effect e) as [t n u|t n|]; simpl.
  - pose proof (size_insert_le (uuid2name st) u n).
    pose proof (size_insert_le (nodes (main_graph st)) n (Some t)).
    pose proof (size_files_with_le t n (file_names st)).
    destruct t; simpl in *; repeat split; unfold count_with;
      try case_decide; try done; lia.
  - pose proof (size_insert_le (nodes (main_graph st)) n (Some t)).
    pose proof (size_files_with_le t n (file_names st)).
    repeat split; lia.
  - repeat split; lia.
Qed.

Lemma node_pass_counts es st :
  count_f (node_pass es st)
    = (count_f st + length (List.filter (declared_as TFile) es))%nat ∧
  count_p (node_pass es st)
    = (count_p st + length (List.filter (declared_as TProcess) es))%nat ∧
  count_s (node_pass es st)
    = (count_s st + length (List.filter (declared_as TSocket) es))%nat ∧
  (size (file_names (node_pass es st))
   ≤ size (file_names st) + length (List.filter (declared_as TFile) es))%nat ∧
  (size (uuid2name (node_pass es st))
   ≤ size (uuid2name st) + length (List.filter (declared_as TFile) es)
     + length (List.filter (declared_as TProcess) es)
     + length (List.filter (declared_as TSocket) es))%nat ∧
  (size (nodes (main_graph (node_pass es st)))
   ≤ size (nodes (main_graph st)) + length es)%nat.
Proof.
  revert st. induction es as [|e es IH]; intros st.
  { simpl. repeat split; lia. }
  destruct (IH (node_step st e)) as (IHf & IHp & IHs & IHn & IHu & IHg).
  destruct (node_step_counts st e) as (Hf & Hp & Hs & Hn & Hu & Hg).
  change (node_pass (e :: es) st) with (node_pass es (node_step st e)).
  simpl List.filter. simpl length.
  destruct (declared_as TFile e), (declared_as TProcess e),
    (declared_as TSocket e); simpl length; repeat split; lia.
Qed.

(** X5: each counter is the number of the declarations of its type that
    were processed to their end: a name or an identifier declared twice
    is counted twice, so that the counters are bounds, not sizes, for
    the file names and for the index; and the graph has no more nodes
    than the log has records. *)
Theorem counters_count_declarations (log_entries : list pyval) :
  count_f (passes log_entries)
    = length (List.filter (declared_as TFile) log_entries) ∧
  count_p (passes log_entries)
    = length (List.filter (declared_as TProcess) log_entries) ∧
  count_s (passes log_entries)
    = length (List.filter (declared_as TSocket) log_entries) ∧
  (size (file_names (passes log_entries)) ≤ count_f (passes log_entries))%nat ∧
  (size (uuid2name (passes log_entries))
   ≤ count_f (passes log_entries) + count_p (passes log_entries)
     + count_s (passes log_entries))%nat ∧
  (size (nodes (main_graph (passes log_entries))) ≤ length log_entries)%nat.
Proof.
  unfold passes.
  destruct (edge_pass_frame log_entries (node_pass log_entries init_state))
    as (Hn & _ & Hu & Hf & Hcf & Hcp & Hcs).
  { apply consistent_node_pass, consistent_init. }
  rewrite Hn, Hu, Hf, Hcf, Hcp, Hcs.
  destruct (node_pass_counts log_entries init_state)
    as (-> & -> & -> & H1 & H2 & H3).
  assert (size (file_names init_state) = 0%nat) as E1 by apply size_empty.
  assert (size (uuid2name init_state) = 0%nat) as E2 by apply map_size_empty.
  assert (size (nodes (main_graph init_state)) = 0%nat) as E3
    by apply map_size_empty.
  rewrite E1 in H1. rewrite E2 in H2. rewrite E3 in H3.
  change (count_f init_state) with 0%nat.
  change (count_p init_state) with 0%nat.
  change (count_s init_state) with 0%nat.
  repeat split; lia.
Qed.

(** ** Records of another shape *)

Lemma not_declaration_not_event st entry :
  (read_declaration entry = None ∨ read_declaration entry = Some NoDecl) →
  (read_event entry = None ∨ read_event entry = Some None) →
  node_step st entry = st ∧ edge_step st entry = st.
Proof.
  intros Hdecl Hevent. split.
  - apply node_step_skipped. unfold node_effect.
    by destruct Hdecl as [-> | ->].
  - apply edge_step_none. unfold edge_effect.
    by destruct Hevent as [-> | ->].
Qed.

(** X6: a record that is not an object, a record whose [datum] is not an
    object, and a record whose [datum] has none of the four keys change
    nothing in either loop. *)
Theorem other_records_change_nothing (st : state) (entry : pyval) :
  (∀ kvs, entry ≠ PDict kvs) ∨
  (∃ kvs datum, entry = PDict kvs ∧ assoc "datum" kvs = Some datum ∧
                ∀ fields, datum ≠ PDict fields) ∨
  (∃ kvs fields, entry = PDict kvs ∧
                 default (PDict []) (assoc "datum" kvs) = PDict fields ∧
                 assoc FILE_OBJECT fields = None ∧
                 assoc SUBJECT fields = None ∧
                 assoc NETFLOW_OBJECT fields = None ∧
                 assoc EVENT fields = None) →
  node_step st entry = st ∧ edge_step st entry = st.
Proof.
  intros [Hentry|[(kvs & datum & -> & Hdatum & Hshape)
                 |(kvs & fields & -> & Hdatum & Hf & Hs & Hn & He)]];
    apply not_declaration_not_event.
  - left. destruct entry; try done. by destruct (Hentry kvs).
  - left. destruct entry; try done. by destruct (Hentry kvs).
  - unfold read_declaration. simpl. rewrite Hdatum. simpl.
    destruct datum as [| | |s|xs|fields]; simpl; auto.
    + destruct (substringb FILE_OBJECT s); simpl; auto.
      destruct (substringb SUBJECT s); simpl; auto.
      destruct (substringb NETFLOW_OBJECT s); simpl; auto.
    + destruct (existsb _ xs); simpl; auto.
      destruct (existsb _ xs); simpl; auto.
      destruct (existsb _ xs); simpl; auto.
    + by destruct (Hshape fields).
  - unfold read_event. simpl. rewrite Hdatum. simpl.
    destruct datum as [| | |s|xs|fields]; simpl; auto.
    + destruct (substringb EVENT s); simpl; auto.
    + destruct (existsb _ xs); simpl; auto.
    + by destruct (Hshape fields).
  - right. unfold read_declaration. simpl. rewrite Hdatum. simpl.
    by rewrite Hf, Hs, Hn.
  - right. unfold read_event. simpl. rewrite Hdatum. simpl.
    by rewrite He.
Qed.

Lemma other_records_change_nothing_witness :
  node_step (passes [passwd_record; bash_record; read_record])
    (PDict [("datum", PStr "com.bbn.tc.schema.avro.cdm18.Event")])
  = passes [passwd_record; bash_record; read_record] ∧
  edge_step (passes [passwd_record; bash_record; read_record])
    (PDict [("datum", PStr "com.bbn.tc.schema.avro.cdm18.Event")])
  = passes [passwd_record; bash_record; read_record].
Proof.
  apply (other_records_change_nothing
           (passes [passwd_record; bash_record; read_record])
           (PDict [("datum", PStr "com.bbn.tc.schema.avro.cdm18.Event")])).
  right. left. eexists _, _. split; [reflexivity|]. split; [reflexivity|].
  intros fields. discriminate.
Defined.

(** ** The subgraphs of the files, one against the other *)

(** X7: the subgraph of a file keeps every edge of the graph that leaves
    one of its nodes, with the node the edge leads to: what follows from
    a node of the subgraph is in the subgraph. *)
Theorem subgraph_keeps_outgoing_edges
    (log_entries : list pyval) (g : digraph) (subs : gmap key digraph)
    (n : key) (sg : digraph) (u v : key) (l : pyval) :
  build_from_entries log_entries = Some (g, subs) →
  subs !! n = Some sg →
  is_Some (nodes sg !! u) →
  edges g !! (u, v) = Some l →
  edges sg !! (u, v) = Some l ∧ is_Some (nodes sg !! v).
Proof.
  intros Hbuild Hn [t Hu] Huv.
  destruct (subgraph_of_build _ _ _ _ _ Hbuild Hn) as (_ & Hwf & Hnodes & Hedges).
  apply Hnodes in Hu as [_ Hu].
  assert (Hv : v = n ∨ tc (edge_rel g) n v).
  { right. destruct Hu as [->|Hu].
    - apply tc_once. by exists l.
    - eapply tc_r; [done|]. by exists l. }
  split; [by apply Hedges|].
  destruct (Hwf u v) as [_ [t' Ht']]; [by exists l|].
  exists t'. by apply Hnodes.
Qed.

Lemma subgraph_keeps_outgoing_edges_witness :
  ∃ sg, edges sg !! (KStr "/etc/passwd", KStr "bash") = Some (PStr "read") ∧
        is_Some (nodes sg !! KStr "bash").
Proof.
  destruct (file_node_has_subgraph [passwd_record; bash_record; read_record]
              (KStr "/etc/passwd")) as (g & subs & sg & Hb & Hg & _ & _ & Hsub).
  { vm_compute. reflexivity. }
  exists sg.
  apply (subgraph_keeps_outgoing_edges _ g subs (KStr "/etc/passwd") sg
           (KStr "/etc/passwd") (KStr "bash") (PStr "read") Hb Hsub).
  - destruct (subgraph_of_build _ _ _ _ _ Hb Hsub) as (_ & _ & Hnodes & _).
    exists (Some TFile). apply Hnodes. split; [|by left].
    rewrite Hg. vm_compute. reflexivity.
  - rewrite Hg. vm_compute. reflexivity.
Defined.

(** X8: when a file is a node of the subgraph of another file, its own
    subgraph is a part of that subgraph: the same nodes with the same
    type, the same edges with the same operation. *)
Theorem subgraphs_are_nested
    (log_entries : list pyval) (g : digraph) (subs : gmap key digraph)
    (n m : key) (sg_n sg_m : digraph) :
  build_from_entries log_entries = Some (g, subs) →
  subs !! n = Some sg_n →
  subs !! m = Some sg_m →
  is_Some (nodes sg_n !! m) →
  (∀ x t, nodes sg_m !! x = Some t → nodes sg_n !! x = Some t) ∧
  (∀ x y l, edges sg_m !! (x, y) = Some l → edges sg_n !! (x, y) = Some l).
Proof.
  intros Hbuild Hn Hm [tm Hin].
  destruct (subgraph_of_build _ _ _ _ _ Hbuild Hn) as (_ & _ & Hnodes & Hedges).
  destruct (subgraph_of_build _ _ _ _ _ Hbuild Hm) as (_ & _ & Hnodes' & Hedges').
  apply Hnodes in Hin as [_ Hnm].
  assert (Hreach : ∀ x, x = m ∨ tc (edge_rel g) m x →
                        x = n ∨ tc (edge_rel g) n x).
  { intros x [->|Hx]; [done|]. right. destruct Hnm as [->|Hnm]; [done|].
    by eapply tc_trans. }
  split.
  - intros x t [Hx Hmx]%Hnodes'. apply Hnodes. auto.
  - intros x y l (Hxy & Hmx & Hmy)%Hedges'. apply Hedges. auto.
Qed.

Lemma subgraphs_are_nested_witness :
  ∃ sg_n sg_m,
    (∀ x t, nodes sg_m !! x = Some t → nodes sg_n !! x = Some t) ∧
    (∀ x y l, edges sg_m !! (x, y) = Some l → edges sg_n !! (x, y) = Some l).
Proof.
  destruct (file_node_has_subgraph
              [passwd_record; file_record (PStr "F2") (PStr "/tmp/copy");
               event_record (PStr "copy") (PStr "F2") (PStr "F1")]
              (KStr "/etc/passwd")) as (g & subs & sg_n & Hb & Hg & _ & _ & Hn).
  { vm_compute. reflexivity. }
  destruct (file_node_has_subgraph
              [passwd_record; file_record (PStr "F2") (PStr "/tmp/copy");
               event_record (PStr "copy") (PStr "F2") (PStr "F1")]
              (KStr "/tmp/copy")) as (g' & subs' & sg_m & Hb' & _ & _ & _ & Hm).
  { vm_compute. reflexivity. }
  rewrite Hb in Hb'. injection Hb' as <- <-.
  exists sg_n, sg_m.
  apply (subgraphs_are_nested _ g subs (KStr "/etc/passwd") (KStr "/tmp/copy")
           sg_n sg_m Hb Hn Hm).
  destruct (subgraph_of_build _ _ _ _ _ Hb Hn) as (_ & _ & Hnodes & _).
  exists (Some TFile). apply Hnodes. rewrite Hg. split.
  - vm_compute. reflexivity.
  - right. apply tc_once. vm_compute. eauto.
Defined.

(** ** Lines of an array written on several lines *)

Lemma framed_dressed opening closing k line :
  framed opening closing k line
  = dressed EmptyString opening line closing EmptyString
      (if closing then 0%nat else k) EmptyString.
Proof.
  unfold framed, dressed. destruct closing; simpl.
  - done.
  - by rewrite append_empty_r.
Qed.

Lemma object_line_clean line :
  is_object_line line = true →
  starts_clean line = true ∧ ends_clean line = true ∧
  is_empty line = false.
Proof.
  unfold is_object_line. intros [[Hfirst Hlast]%andb_prop _]%andb_prop.
  apply endswith_last_char in Hlast. unfold ends_clean. rewrite Hlast.
  destruct line as [|a line]; [done|]. simpl in Hfirst.
  apply Ascii.eqb_eq in Hfirst. by subst a.
Qed.

Lemma array_framing_line loads opening closing k line :
  is_object_line line = true →
  parse_line loads (framed opening closing k line) = handled (loads line) ∧
  parse_line loads "[" = Returns None ∧
  parse_line loads "]" = Returns None.
Proof.
  intros (Hstart & Hend & Hne)%object_line_clean. split; [|done].
  rewrite framed_dressed, parse_line_dressed by done. by rewrite Hne.
Qed.

(** X9: in the loop over the lines a record that stands on its line as an
    element of an array, after an opening bracket or not, before a
    closing bracket or any number of commas, is read as the record
    alone; a line that holds a bracket and nothing else gives no record
    and is not handed to [json.loads]. *)
Theorem array_framing_is_removed
    (loads : string → outcome pyval) (opening closing : bool) (k : nat)
    (line : string) :
  is_object_line line = true →
  parse_line loads (framed opening closing k line) = handled (loads line) ∧
  parse_line loads "[" = Returns None ∧
  parse_line loads "]" = Returns None.
Proof. apply array_framing_line. Qed.

Lemma array_framing_is_removed_witness :
  parse_line json_loads (framed true false 1 passwd_line)
  = handled (json_loads passwd_line) ∧
  parse_line json_loads "[" = Returns None ∧
  parse_line json_loads "]" = Returns None.
Proof.
  apply (array_framing_is_removed json_loads true false 1 passwd_line).
  vm_compute. reflexivity.
Defined.

(** ** The files of the subgraphs *)

Lemma append_inj_r t s1 : ∀ s2, s1 +:+ t = s2 +:+ t → s1 = s2.
Proof.
  induction s1 as [|a s1 IH]; intros [|b s2] H; [done| | |].
  - apply (f_equal String.length) in H. simpl in H.
    rewrite length_append in H. lia.
  - apply (f_equal String.length) in H. simpl in H.
    rewrite length_append in H. lia.
  - simpl in H. injection H as -> H. f_equal. by apply IH.
Qed.

Lemma gml_file_inj output_path i j :
  gml_file output_path i = gml_file output_path j → i = j.
Proof.
  unfold gml_file, path_join.
  change (startswith "/" ("graph" +:+ pretty i +:+ ".gml")) with false.
  change (startswith "/" ("graph" +:+ pretty j +:+ ".gml")) with false.
  cbv iota. intros H.
  assert (H' : "graph" +:+ pretty i +:+ ".gml"
               = "graph" +:+ pretty j +:+ ".gml").
  { destruct (is_empty output_path || endswith "/" output_path).
    - by apply String.app_inj in H.
    - apply String.app_inj in H. by apply (String.app_inj "/") in H. }
  apply (String.app_inj "graph") in H'. apply append_inj_r in H'.
  by apply (inj pretty) in H'.
Qed.

Lemma save_from_cons write_gml i n sg rest :
  save_from write_gml i ((n, sg) :: rest)
  = match write_gml sg (gml_file output_dir i) with
    | Returns _ =>
        ((gml_file output_dir i, sg) :: (save_from write_gml (i + 1) rest).1,
         (save_from write_gml (i + 1) rest).2)
    | result => ([(gml_file output_dir i, sg)], result)
    end.
Proof.
  simpl. destruct (write_gml sg (gml_file output_dir i)); [|done|done].
  by destruct (save_from write_gml (i + 1) rest).
Qed.

(** A call made is the call for the item at its place. *)
Lemma save_from_lookup write_gml items : ∀ i j call,
  (save_from write_gml i items).1 !! j = Some call →
  ∃ item, items !! j = Some item ∧
          call = (gml_file output_dir (i + Z.of_nat j), item.2).
Proof.
  induction items as [|[n sg] rest IH]; intros i j call; [done|].
  rewrite save_from_cons.
  destruct (write_gml sg (gml_file output_dir i)) as [[]|e|].
  - destruct j as [|j]; simpl.
    + intros [= <-]. exists (n, sg). by rewrite Z.add_0_r.
    + intros (item & Hitem & ->)%IH. exists item. split; [done|].
      do 2 f_equal. lia.
  - destruct j as [|j]; simpl; [|done].
    intros [= <-]. exists (n, sg). by rewrite Z.add_0_r.
  - destruct j as [|j]; simpl; [|done].
    intros [= <-]. exists (n, sg). by rewrite Z.add_0_r.
Qed.


(** The first call that does not return ends the loop. *)
Lemma save_from_stops write_gml pre item post : ∀ i,
  (∀ j x, pre !! j = Some x →
          write_gml x.2 (gml_file output_dir (i + Z.of_nat j)) = Returns tt) →
  returns (write_gml item.2
             (gml_file output_dir (i + Z.of_nat (length pre)))) = false →
  (save_from write_gml i (pre ++ item :: post)).2
  = write_gml item.2 (gml_file output_dir (i + Z.of_nat (length pre))) ∧
  length (save_from write_gml i (pre ++ item :: post)).1 = S (length pre).
Proof.
  induction pre as [|[n sg] pre IH]; intros i Hpre Hitem.
  - destruct item as [n sg]. simpl app. rewrite save_from_cons.
    simpl in Hitem. rewrite Z.add_0_r in Hitem. simpl length.
    rewrite Z.add_0_r. simpl.
    by destruct (write_gml sg (gml_file output_dir i)).
  - change (((n, sg) :: pre) ++ item :: post)
      with ((n, sg) :: (pre ++ item :: post)).
    rewrite save_from_cons.
    pose proof (Hpre 0%nat (n, sg) eq_refl) as H0. simpl in H0.
    rewrite Z.add_0_r in H0. rewrite H0.
    destruct (IH (i + 1)) as [Hr Hlen].
    { intros j x Hj. specialize (Hpre (S j) x Hj).
      by replace (i + 1 + Z.of_nat j) with (i + Z.of_nat (S j)) by lia. }
    { by replace (i + 1 + Z.of_nat (length pre))
        with (i + Z.of_nat (length ((n, sg) :: pre))) by (simpl; lia). }
    simpl. rewrite Hr, Hlen. split; [|done].
    do 2 f_equal. lia.
Qed.

(** X10: the calls of [nx.write_gml] that the last loop makes name
    files that differ from one another: the call number [i] (from 1)
    is for [output#/graph<i>.gml] and the subgraph number [i], and for
    every directory two numbers give two files.  The loop is not
    guarded: the first call that does not return is the last one made,
    and its exception ends the script. *)
Theorem saved_files_are_distinct
    (write_gml : digraph → string → outcome unit)
    (items : list (key * digraph)) :
  NoDup (fst <$> (save_all write_gml items).1) ∧
  (∀ i call, (save_all write_gml items).1 !! i = Some call →
             ∃ item, items !! i = Some item ∧
                     call = ("output#/graph" +:+ pretty (1 + Z.of_nat i)
                             +:+ ".gml", item.2)) ∧
  (∀ output_path i j,
     gml_file output_path i = gml_file output_path j → i = j) ∧
  (∀ pre item post,
     items = pre ++ item :: post →
     (∀ j x, pre !! j = Some x →
             write_gml x.2 (gml_file output_dir (1 + Z.of_nat j))
             = Returns tt) →
     returns (write_gml item.2
                (gml_file output_dir (1 + Z.of_nat (length pre)))) = false →
     (save_all write_gml items).2
     = write_gml item.2 (gml_file output_dir (1 + Z.of_nat (length pre))) ∧
     length (save_all write_gml items).1 = S (length pre)).
Proof.
  split; [|split; [|split]].
  - apply NoDup_alt. intros i j path. unfold save_all.
    rewrite !list_lookup_fmap.
    destruct (_ !! i) as [x|] eqn:Hi; simpl; [|done].
    destruct (_ !! j) as [y|] eqn:Hj; simpl; [|done].
    apply save_from_lookup in Hi as (? & _ & ->).
    apply save_from_lookup in Hj as (? & _ & ->).
    simpl. intros Hx Hy.
    assert (gml_file output_dir (1 + Z.of_nat i)
            = gml_file output_dir (1 + Z.of_nat j)) as H by congruence.
    apply gml_file_inj in H. lia.
  - intros i call Hi. by apply save_from_lookup in Hi.
  - apply gml_file_inj.
  - intros pre item post -> Hpre Hitem. by apply save_from_stops.
Qed.




(** ** A log read twice *)

Lemma last_occurrence {A} (P : A → Prop) `{!∀ x, Decision (P x)}
    (l : list A) :
  Exists P l →
  ∃ pre x post, l = pre ++ x :: post ∧ P x ∧ ∀ y, y ∈ post → ¬ P y.
Proof.
  induction l as [|a l IH] using rev_ind.
  { intros Hex. inversion Hex. }
  intros Hex. destruct (decide (P a)) as [Ha|Ha].
  - exists l, a, []. split; [done|]. split; [done|].
    intros y Hy. inversion Hy.
  - apply Exists_app in Hex as [Hex|Hex].
    + destruct (IH Hex) as (pre & x & post & -> & Hx & Hpost).
      exists pre, x, (post ++ [a]). split; [by rewrite <- app_assoc|].
      split; [done|]. intros y [Hy|Hy]%elem_of_app; [by apply Hpost|].
      apply list_elem_of_singleton in Hy. by subst y.
    + apply Exists_cons in Hex as [Hex|Hex]; [done|]. inversion Hex.
Qed.

Lemma node_pass_nodes_unnamed es st n :
  (∀ e, e ∈ es → snd <$> names_node e ≠ Some n) →
  nodes (main_graph (node_pass es st)) !! n = nodes (main_graph st) !! n.
Proof.
  revert st. induction es as [|e es IH]; intros st Hes; [done|].
  simpl. unfold node_pass in IH. rewrite IH.
  - pose proof (Hes e ltac:(left)) as He. unfold names_node in He.
    rewrite node_step_effect.
    destruct (node_effect e) as [t m u|t m|]; simpl in *; try done;
      rewrite lookup_insert_ne; congruence.
  - intros e' He'. apply Hes. by right.
Qed.

Lemma node_pass_index_unbound es st u :
  (∀ e, e ∈ es → fst <$> binds e ≠ Some u) →
  uuid2name (node_pass es st) !! u = uuid2name st !! u.
Proof.
  revert st. induction es as [|e es IH]; intros st Hes; [done|].
  simpl. unfold node_pass in IH. rewrite IH.
  - pose proof (Hes e ltac:(left)) as He. unfold binds in He.
    rewrite node_step_effect.
    destruct (node_effect e) as [t m u'|t m|]; simpl in *; try done.
    rewrite lookup_insert_ne; congruence.
  - intros e' He'. apply Hes. by right.
Qed.

Lemma node_pass_twice es st :
  nodes (main_graph (node_pass es (node_pass es st)))
  = nodes (main_graph (node_pass es st)) ∧
  uuid2name (node_pass es (node_pass es st)) = uuid2name (node_pass es st) ∧
  file_nodes (node_pass es (node_pass es st)) = file_nodes (node_pass es st) ∧
  file_names (node_pass es (node_pass es st)) = file_names (node_pass es st).
Proof.
  split; [|split; [|split]].
  - apply map_eq. intros n.
    destruct (decide (Exists (fun e => snd <$> names_node e = Some n) es))
      as [Hex|Hno].
    + apply last_occurrence in Hex as (pre & x & post & -> & Hx & Hpost);
        [|apply _].
      destruct (names_node x) as [[t m]|] eqn:E; [|done].
      simpl in Hx. injection Hx as ->.
      assert (Hpost' : ∀ e t', e ∈ post → names_node e ≠ Some (t', n)).
      { intros e t' He Hn. apply (Hpost e He). by rewrite Hn. }
      by rewrite !(node_pass_last_type _ _ _ _ t n E Hpost').
    + apply node_pass_nodes_unnamed. intros e He Hn. apply Hno.
      apply Exists_exists. by exists e.
  - apply map_eq. intros u.
    destruct (decide (Exists (fun e => fst <$> binds e = Some u) es))
      as [Hex|Hno].
    + apply last_occurrence in Hex as (pre & x & post & -> & Hx & Hpost);
        [|apply _].
      destruct (binds x) as [[u' n]|] eqn:E; [|done].
      simpl in Hx. injection Hx as ->.
      assert (Hpost' : ∀ e n', e ∈ post → binds e ≠ Some (u, n')).
      { intros e n' He Hn. apply (Hpost e He). by rewrite Hn. }
      by rewrite !(node_pass_last_binding _ _ _ _ u n E Hpost').
    + apply node_pass_index_unbound. intros e He Hn. apply Hno.
      apply Exists_exists. by exists e.
  - apply set_eq. intros n. rewrite (file_nodes_declared es (node_pass es st)).
    split; [|by left]. intros [?|?]; [done|].
    apply file_nodes_declared. by right.
  - apply set_eq. intros n. rewrite (file_names_declared es (node_pass es st)).
    split; [|by left]. intros [?|?]; [done|].
    apply file_names_declared. by right.
Qed.

Lemma edge_pass_last_yield pre post entry st u v l :
  consistent st →
  edge_effect (uuid2name st) (file_names st) entry = Some (u, v, l) →
  (∀ e, e ∈ post →
        fst <$> edge_effect (uuid2name st) (file_names st) e ≠ Some (u, v)) →
  edges (main_graph (edge_pass (pre ++ entry :: post) st)) !! (u, v) = Some l.
Proof.
  intros Hst Heff Hpost.
  replace (pre ++ entry :: post) with ((pre ++ [entry]) ++ post)
    by by rewrite <- app_assoc.
  rewrite edge_pass_app, edge_pass_lookup_kept.
  - by rewrite (edge_step_yield _ _ _ _ _ _ Hst Heff), lookup_insert_eq.
  - by apply consistent_edge_pass.
  - intros e l' He. rewrite edge_effect_stable by done.
    intros Hy. apply (Hpost e He). by rewrite Hy.
Qed.

Lemma edge_pass_twice es st st' :
  consistent st → consistent st' →
  uuid2name st' = uuid2name st → file_names st' = file_names st →
  edges (main_graph st') = edges (main_graph st) →
  edges (main_graph (edge_pass (es ++ es) st'))
  = edges (main_graph (edge_pass es st)).
Proof.
  intros Hst Hst' Hidx Hnames Hedges. apply map_eq. intros [u v].
  destruct (decide (Exists (fun e =>
              fst <$> edge_effect (uuid2name st) (file_names st) e
              = Some (u, v)) es)) as [Hex|Hno].
  - apply last_occurrence in Hex as (pre & x & post & -> & Hx & Hpost);
      [|apply _].
    destruct (edge_effect (uuid2name st) (file_names st) x)
      as [[[a b] l]|] eqn:E; [|done].
    simpl in Hx. injection Hx as -> ->.
    rewrite (edge_pass_last_yield pre post x st u v l) by done.
    replace ((pre ++ x :: post) ++ pre ++ x :: post)
      with (((pre ++ x :: post) ++ pre) ++ x :: post)
      by by rewrite <- app_assoc.
    apply edge_pass_last_yield; [done| |].
    + by rewrite Hidx, Hnames.
    + intros e He. rewrite Hidx, Hnames. by apply Hpost.
  - rewrite !edge_pass_lookup_kept, Hedges; [done|done| |done|].
    + intros e l He Hy. apply Hno. apply Exists_exists. exists e.
      split; [done|]. by rewrite Hy.
    + intros e l [He|He]%elem_of_app Hy; apply Hno; apply Exists_exists;
        exists e; (split; [done|]); by rewrite <- Hidx, <- Hnames, Hy.
Qed.

Lemma counters_count_lengths es :
  count_f (passes es) = length (List.filter (declared_as TFile) es) ∧
  count_p (passes es) = length (List.filter (declared_as TProcess) es) ∧
  count_s (passes es) = length (List.filter (declared_as TSocket) es).
Proof.
  unfold passes.
  destruct (edge_pass_frame es (node_pass es init_state))
    as (_ & _ & _ & _ & -> & -> & ->).
  { apply consistent_node_pass, consistent_init. }
  destruct (node_pass_counts es init_state) as (-> & -> & -> & _).
  done.
Qed.

Lemma counters_twice log_entries :
  count_f (passes (log_entries ++ log_entries))
  = (2 * count_f (passes log_entries))%nat ∧
  count_p (passes (log_entries ++ log_entries))
  = (2 * count_p (passes log_entries))%nat ∧
  count_s (passes (log_entries ++ log_entries))
  = (2 * count_s (passes log_entries))%nat.
Proof.
  assert (Hc : ∀ es,
    count_f (passes es) = length (List.filter (declared_as TFile) es) ∧
    count_p (passes es) = length (List.filter (declared_as TProcess) es) ∧
    count_s (passes es) = length (List.filter (declared_as TSocket) es)).
  { intros es. unfold passes.
    destruct (edge_pass_frame es (node_pass es init_state))
      as (_ & _ & _ & _ & -> & -> & ->).
    { apply consistent_node_pass, consistent_init. }
    destruct (node_pass_counts es init_state) as (-> & -> & -> & _).
    done. }
  destruct (Hc (log_entries ++ log_entries)) as (-> & -> & ->).
  destruct (Hc log_entries) as (-> & -> & ->).
  rewrite !List.filter_app, !length_app. repeat split; lia.
Qed.

Lemma digraph_eq (g g' : digraph) :
  nodes g = nodes g' → edges g = edges g' → g = g'.
Proof. destruct g, g'. simpl. by intros -> ->. Qed.

(** X12: a log followed by itself gives the graph, the file nodes, the index
    and the subgraphs that the log alone gives; the counters are
    doubled. *)
Theorem log_read_twice (log_entries : list pyval) :
  main_graph (passes (log_entries ++ log_entries))
  = main_graph (passes log_entries) ∧
  file_nodes (passes (log_entries ++ log_entries))
  = file_nodes (passes log_entries) ∧
  file_names (passes (log_entries ++ log_entries))
  = file_names (passes log_entries) ∧
  uuid2name (passes (log_entries ++ log_entries))
  = uuid2name (passes log_entries) ∧
  build_from_entries (log_entries ++ log_entries)
  = build_from_entries log_entries ∧
  count_f (passes (log_entries ++ log_entries))
  = (2 * count_f (passes log_entries))%nat ∧
  count_p (passes (log_entries ++ log_entries))
  = (2 * count_p (passes log_entries))%nat ∧
  count_s (passes (log_entries ++ log_entries))
  = (2 * count_s (passes log_entries))%nat.
Proof.
  set (st1 := node_pass log_entries init_state).
  assert (Hst1 : consistent st1) by apply consistent_node_pass, consistent_init.
  assert (Hst2 : consistent (node_pass log_entries st1))
    by by apply consistent_node_pass.
  destruct (node_pass_twice log_entries init_state) as (Hn & Hu & Hfn & Hfm).
  fold st1 in Hn, Hu, Hfn, Hfm.
  assert (Hnode : node_pass (log_entries ++ log_entries) init_state
                  = node_pass log_entries st1) by apply node_pass_app.
  assert (Hgraph : main_graph (passes (log_entries ++ log_entries))
                   = main_graph (passes log_entries)).
  { apply digraph_eq.
    - by rewrite !passes_nodes, Hnode.
    - unfold passes. rewrite Hnode. fold st1.
      apply edge_pass_twice; try done.
      by rewrite !node_pass_edges. }
  assert (Hfiles : file_nodes (passes (log_entries ++ log_entries))
                   = file_nodes (passes log_entries)).
  { by rewrite !passes_file_nodes, Hnode. }
  split; [done|]. split; [done|].
  split; [by rewrite !passes_file_names, Hnode|].
  split; [by rewrite !passes_uuid2name, Hnode|].
  split; [unfold build_from_entries; by rewrite Hgraph, Hfiles|].
  destruct (counters_twice log_entries) as (-> & -> & ->). done.
Qed.

(** ** What holds of every final state *)

(** X13: after the two loops, for every log: the names of the index and the
    file nodes are nodes of the graph, the file names are file nodes, a
    node whose type is file is a file node, the edges join nodes of the
    graph, and a file node that is not a file name comes from a file
    declaration that was not processed to its end. *)
Theorem final_state_invariant (log_entries : list pyval) :
  (∀ u n, uuid2name (passes log_entries) !! u = Some n →
          is_Some (nodes (main_graph (passes log_entries)) !! n)) ∧
  file_names (passes log_entries) ⊆ file_nodes (passes log_entries) ∧
  (∀ n, n ∈ file_nodes (passes log_entries) →
        is_Some (nodes (main_graph (passes log_entries)) !! n)) ∧
  (∀ n, nodes (main_graph (passes log_entries)) !! n = Some (Some TFile) →
        n ∈ file_nodes (passes log_entries)) ∧
  (∀ u v, is_Some (edges (main_graph (passes log_entries)) !! (u, v)) →
          is_Some (nodes (main_graph (passes log_entries)) !! u) ∧
          is_Some (nodes (main_graph (passes log_entries)) !! v)) ∧
  (∀ n, n ∈ file_nodes (passes log_entries) →
        n ∉ file_names (passes log_entries) →
        ∃ e, e ∈ log_entries ∧ node_effect e = NodeOnly TFile n).
Proof.
  destruct (consistent_passes log_entries) as [H1 H2 H3 H4 _ H6].
  repeat split; try done.
  - by destruct (H6 u v).
  - by destruct (H6 u v).
  - intros n Hn Hnot. rewrite passes_file_nodes in Hn.
    rewrite passes_file_names in Hnot.
    apply file_nodes_declared in Hn as [Hn|(e & He & Hname)].
    { simpl in Hn. set_solver. }
    exists e. split; [done|]. unfold names_node in Hname.
    destruct (node_effect e) as [t m u|t m|] eqn:E; simplify_eq; [|done].
    destruct Hnot. apply file_names_declared. right. by exists e, u.
Qed.

(** ** The order of the records *)

Lemma node_pass_index_iff es st u :
  is_Some (uuid2name (node_pass es st) !! u) ↔
  is_Some (uuid2name st !! u) ∨ ∃ e n, e ∈ es ∧ binds e = Some (u, n).
Proof.
  revert st. induction es as [|e es IH]; intros st; simpl.
  - split; [by left|]. intros [?|(e & t & He & _)]; [done|]. inversion He.
  - unfold node_pass in IH. rewrite IH. unfold binds.
    rewrite node_step_effect. split.
    + intros [Hn|(e' & n & He' & Heff)].
      * destruct (node_effect e) as [t m u'|t m|] eqn:E; simpl in Hn; auto.
        rewrite lookup_insert in Hn. case_decide; [subst u'|by left].
        right. exists e, m. split; [left|by rewrite E].
      * right. exists e', n. split; [by right|done].
    + intros [Hn|(e' & n & He' & Heff)].
      * left. destruct (node_effect e) as [t m u'|t m|]; simpl; try done.
        rewrite lookup_insert; by case_decide.
      * apply elem_of_cons in He' as [->|He'].
        -- left. destruct (node_effect e) as [t' m u'|t' m|]; simplify_eq.
           simpl. by rewrite lookup_insert_eq.
        -- right. by exists e', n.
Qed.

Lemma edge_pass_edges_iff es st k :
  consistent st →
  is_Some (edges (main_graph (edge_pass es st)) !! k) ↔
  is_Some (edges (main_graph st) !! k) ∨
  ∃ e, e ∈ es ∧
       fst <$> edge_effect (uuid2name st) (file_names st) e = Some k.
Proof.
  intros Hst. destruct k as [u v]. split.
  - intros [l Hl]. apply edge_pass_edges_from in Hl; [|done].
    destruct Hl as [Hl|(e & He & Heff)]; [left; by exists l|].
    right. exists e. split; [done|]. by rewrite Heff.
  - intros [Hk|(e & He & Heff)]; [by apply edge_pass_edge_kept|].
    destruct (edge_effect _ _ e) as [[[a b] l]|] eqn:E; simplify_eq/=.
    apply elem_of_split in He as (pre & post & ->).
    by eapply edge_in_final_graph.
Qed.

Lemma filter_length_perm {A} (f : A → bool) (l l' : list A) :
  l ≡ₚ l' → length (List.filter f l) = length (List.filter f l').
Proof.
  induction 1 as [|x l l' _ IH|x y l|l l' l'' _ IH1 _ IH2]; simpl.
  - done.
  - destruct (f x); simpl; by rewrite IH.
  - by destruct (f x), (f y).
  - by rewrite IH1.
Qed.

(** X14: putting the records of a log in another order changes neither the
    set of the nodes, nor the file nodes, nor the file names, nor the
    identifiers of the index, nor the counters; and when it leaves the
    names of the identifiers as they were, it leaves the set of the
    edges as it was. *)
Theorem order_of_records (log_entries log_entries' : list pyval) :
  log_entries ≡ₚ log_entries' →
  dom (nodes (main_graph (passes log_entries)))
  = dom (nodes (main_graph (passes log_entries'))) ∧
  file_nodes (passes log_entries) = file_nodes (passes log_entries') ∧
  file_names (passes log_entries) = file_names (passes log_entries') ∧
  dom (uuid2name (passes log_entries))
  = dom (uuid2name (passes log_entries')) ∧
  count_f (passes log_entries) = count_f (passes log_entries') ∧
  count_p (passes log_entries) = count_p (passes log_entries') ∧
  count_s (passes log_entries) = count_s (passes log_entries') ∧
  (uuid2name (passes log_entries) = uuid2name (passes log_entries') →
   dom (edges (main_graph (passes log_entries)))
   = dom (edges (main_graph (passes log_entries')))).
Proof.
  intros Hperm.
  assert (Hin : ∀ e, e ∈ log_entries ↔ e ∈ log_entries').
  { intros e. by rewrite Hperm. }
  assert (Hnames : file_names (passes log_entries)
                   = file_names (passes log_entries')).
  { apply set_eq. intros n. rewrite !passes_file_names, !file_names_declared.
    by setoid_rewrite Hin. }
  split; [|split; [|split; [done|split; [|split; [|split; [|split]]]]]].
  - apply set_eq. intros n.
    rewrite !elem_of_dom, !passes_nodes, !node_pass_nodes_iff.
    by setoid_rewrite Hin.
  - apply set_eq. intros n. rewrite !passes_file_nodes, !file_nodes_declared.
    by setoid_rewrite Hin.
  - apply set_eq. intros u.
    rewrite !elem_of_dom, !passes_uuid2name, !node_pass_index_iff.
    by setoid_rewrite Hin.
  - destruct (counters_count_lengths log_entries) as (-> & _).
    destruct (counters_count_lengths log_entries') as (-> & _).
    by apply filter_length_perm.
  - destruct (counters_count_lengths log_entries) as (_ & -> & _).
    destruct (counters_count_lengths log_entries') as (_ & -> & _).
    by apply filter_length_perm.
  - destruct (counters_count_lengths log_entries) as (_ & _ & ->).
    destruct (counters_count_lengths log_entries') as (_ & _ & ->).
    by apply filter_length_perm.
  - intros Hidx. apply set_eq. intros k. rewrite !elem_of_dom.
    unfold passes.
    rewrite !edge_pass_edges_iff by apply consistent_node_pass, consistent_init.
    rewrite !node_pass_edges.
    rewrite !passes_uuid2name in Hidx. rewrite !passes_file_names in Hnames.
    rewrite Hidx, Hnames. by setoid_rewrite Hin.
Qed.

Lemma order_of_records_witness :
  dom (nodes (main_graph (passes [read_record; bash_record; passwd_record])))
  = dom (nodes (main_graph (passes [passwd_record; bash_record; read_record]))) ∧
  file_nodes (passes [read_record; bash_record; passwd_record])
  = file_nodes (passes [passwd_record; bash_record; read_record]) ∧
  file_names (passes [read_record; bash_record; passwd_record])
  = file_names (passes [passwd_record; bash_record; read_record]) ∧
  dom (uuid2name (passes [read_record; bash_record; passwd_record]))
  = dom (uuid2name (passes [passwd_record; bash_record; read_record])) ∧
  count_f (passes [read_record; bash_record; passwd_record])
  = count_f (passes [passwd_record; bash_record; read_record]) ∧
  count_p (passes [read_record; bash_record; passwd_record])
  = count_p (passes [passwd_record; bash_record; read_record]) ∧
  count_s (passes [read_record; bash_record; passwd_record])
  = count_s (passes [passwd_record; bash_record; read_record]) ∧
  (uuid2name (passes [read_record; bash_record; passwd_record])
   = uuid2name (passes [passwd_record; bash_record; read_record]) →
   dom (edges (main_graph (passes [read_record; bash_record; passwd_record])))
   = dom (edges (main_graph (passes [passwd_record; bash_record; read_record])))).
Proof.
  apply (order_of_records [read_record; bash_record; passwd_record]
           [passwd_record; bash_record; read_record]).
  symmetry. apply (Permutation_rev [passwd_record; bash_record; read_record]).
Defined.

(** ** An array cut off before its end *)

Lemma has_newline_app s t :
  has_newline (s +:+ t) = has_newline s || has_newline t.
Proof.
  induction s as [|a s IH]; simpl; [done|]. by rewrite IH, orb_assoc.
Qed.

Lemma array_lines_no_newline loads first lines :
  Forall (fun line => record_line loads line = true) lines →
  Forall (fun line => has_newline line = false) (array_lines first lines).
Proof.
  intros Hall. revert first.
  induction Hall as [|line lines Hline _ IH]; intros first; simpl;
    constructor; [|apply IH].
  apply record_line_object in Hline as [Hobj _].
  apply object_line_no_newline in Hobj.
  unfold framed. rewrite !has_newline_app, Hobj. by destruct first.
Qed.

Lemma array_lines_entries loads first lines records :
  Forall2 (fun line r => record_line loads line = true ∧
                         loads line = Returns r) lines records →
  Forall (fun line => returns (parse_line loads line) = true)
    (array_lines first lines) ∧
  omap (line_entry loads) (array_lines first lines) = records.
Proof.
  intros Hall. revert first.
  induction Hall as [|line r lines records [Hrec Hload] _ IH]; intros first;
    [done|].
  apply record_line_object in Hrec as [Hobj _].
  destruct (array_framing_line loads first false 1 line Hobj) as [Hparse _].
  rewrite Hload in Hparse. simpl in Hparse.
  destruct (IH false) as [Hret Hentries].
  change (array_lines first (line :: lines))
    with (framed first false 1 line :: array_lines false lines).
  split.
  - constructor; [by rewrite Hparse|done].
  - change (omap (line_entry loads)
              (framed first false 1 line :: array_lines false lines))
      with (match line_entry loads (framed first false 1 line) with
            | Some y => y :: omap (line_entry loads) (array_lines false lines)
            | None => omap (line_entry loads) (array_lines false lines)
            end).
    unfold line_entry at 1. by rewrite Hparse, Hentries.
Qed.

(** X15: a log written as one array, one record on each line, and cut
    off in its last line: when [json.loads] rejects with
    [JSONDecodeError] the text as a whole and what is left of the last
    line, the log is decoded to the records that stand before the
    cut. *)
Theorem truncated_array_is_recovered
    (loads : string → outcome pyval) (lines : list string)
    (records : list pyval) (torn : string) :
  Forall2 (fun line r => record_line loads line = true ∧
                         loads line = Returns r) lines records →
  has_newline torn = false →
  gives_nothing loads torn →
  loads (join_lines (array_lines true lines ++ [torn]))
  = Raises JSONDecodeError →
  decode loads (join_lines (array_lines true lines ++ [torn]))
  = Returns records.
Proof.
  intros Hlines Hnl Htorn Hwhole.
  destruct (array_lines_entries loads true lines records Hlines)
    as [Hret Hentries].
  rewrite decode_line_by_line; [|..|done].
  - rewrite omap_app, Hentries. simpl. unfold line_entry.
    rewrite (gives_nothing_returns _ _ Htorn). by rewrite app_nil_r.
  - apply Forall_app. split; [|by constructor].
    apply array_lines_no_newline with loads.
    clear -Hlines. induction Hlines as [|? ? ? ? [? _]]; by constructor.
  - apply Forall_app. split; [done|]. constructor; [|done].
    by rewrite (gives_nothing_returns _ _ Htorn).
Qed.

Lemma truncated_array_is_recovered_witness :
  decode json_loads
    (join_lines (array_lines true [passwd_line; bash_line] ++ [torn_line]))
  = Returns [passwd_record; bash_record].
Proof.
  apply (truncated_array_is_recovered json_loads [passwd_line; bash_line]
           [passwd_record; bash_record] torn_line).
  - repeat constructor; vm_compute; reflexivity.
  - vm_compute. reflexivity.
  - right. right. vm_compute. reflexivity.
  - vm_compute. reflexivity.
Defined.

(** ** Examples *)

(** The scenario of the specification: two nodes, one edge from the
    file to the process, one subgraph, for the file. *)
Example scenario_result :
  outcome_listing (build_graph_and_subgraphs json_loads scenario_array)
  = Returns
      (([(KStr "/etc/passwd", Some TFile); (KStr "bash", Some TProcess)],
        [((KStr "/etc/passwd", KStr "bash"), PStr "read")]),
       [(KStr "/etc/passwd",
         ([(KStr "/etc/passwd", Some TFile); (KStr "bash", Some TProcess)],
          [((KStr "/etc/passwd", KStr "bash"), PStr "read")]))]).
Proof. vm_compute. reflexivity. Qed.

(** The same records one on each line, and the damaged log, give the
    same result. *)
Example scenario_lines_result :
  build_graph_and_subgraphs json_loads (join_lines record_lines)
  = build_graph_and_subgraphs json_loads scenario_array ∧
  build_graph_and_subgraphs json_loads recovered_content
  = build_graph_and_subgraphs json_loads scenario_array.
Proof. vm_compute. done. Qed.

(** An event of a file on itself gives a loop on the file node. *)
Example self_loop_result :
  result_listing (build_from_entries
    [passwd_record; event_record (PStr "rename") (PStr "F1") (PStr "F1")])
  = Some (([(KStr "/etc/passwd", Some TFile)],
           [((KStr "/etc/passwd", KStr "/etc/passwd"), PStr "rename")]),
          [(KStr "/etc/passwd",
            ([(KStr "/etc/passwd", Some TFile)],
             [((KStr "/etc/passwd", KStr "/etc/passwd"), PStr "rename")]))]).
Proof. vm_compute. reflexivity. Qed.

(** An event of a process on a socket keeps the direction of the event,
    and a file that no event names has a subgraph of one node. *)
Example socket_result :
  result_listing (build_from_entries
    [passwd_record; bash_record;
     socket_record (PStr "S1") (PStr "10.0.0.1");
     event_record (PStr "connect") (PStr "P1") (PStr "S1")])
  = Some (([(KStr "/etc/passwd", Some TFile); (KStr "10.0.0.1", Some TSocket);
            (KStr "bash", Some TProcess)],
           [((KStr "bash", KStr "10.0.0.1"), PStr "connect")]),
          [(KStr "/etc/passwd", ([(KStr "/etc/passwd", Some TFile)], []))]).
Proof. vm_compute. reflexivity. Qed.

(** Cleaning takes one bracket on each side. *)
Example clean_line_brackets :
  clean_line (dq "  [{'a': 1},  ") = dq "{'a': 1}" ∧
  clean_line (dq "{'a': 1}]") = dq "{'a': 1}" ∧
  clean_line "[[1]]" = "[1]" ∧
  clean_line (dq "{'a': 1}, ,") = dq "{'a': 1},".
Proof. vm_compute. done. Qed.

(** Cleaning on a text dressed in all that it removes, and on texts
    that keep a bracket or white space of their own. *)
Example clean_line_dressed_texts :
  clean_line (dressed "  " true (dq "{'a': 1}") true " " 2 "  ")
  = dq "{'a': 1}" ∧
  clean_line (dressed EmptyString true "[1]" true EmptyString 0 EmptyString)
  = "[1]" ∧
  clean_line (dressed " " true (dq " {'a': 1} ") false EmptyString 1 " ")
  = dq " {'a': 1}".
Proof. vm_compute. done. Qed.

(** Where the reader stops short of [json.loads]: a float, a [\u]
    escape and a nesting deeper than [max_depth] are left unmodelled;
    an integer of [max_str_digits] digits is read, one more digit
    raises [ValueError]. *)
Example reader_limits :
  json_loads "1.5" = Unmodelled ∧
  json_loads "NaN" = Unmodelled ∧
  json_loads (String dquote (String backslash ("u00e9" +:+ String dquote EmptyString)))
  = Unmodelled ∧
  returns (json_loads (ones 4300)) = true ∧
  json_loads (ones 4301) = Raises ValueError ∧
  json_loads "[1, 2" = Raises JSONDecodeError.
Proof. vm_compute. done. Qed.

(** A document that parses as a whole is not read line by line: an
    object written on two lines is one record, though neither line is a
    JSON text. *)
Example whole_document_first :
  parse_line json_loads (dq "{'a':") = Returns None ∧
  parse_line json_loads "1}" = Returns None ∧
  decode json_loads (dq "{'a':" +:+ String newline "1}")
  = Returns [PDict [("a", PInt 1)]].
Proof. vm_compute. done. Qed.
